(** * Fireflies and shader pipeline: a shallow embedding

    The development embeds four source files of the repository:

    - [taskB_Gubanova.py]: the firefly simulation ([update_fireflies]) and
      the trail buffer with its splat pass ([render]);
    - [gui.py]: the [BaseShader] and [TwoPassShader] classes;
    - [sdf.py] and [taskA_Gubanova.py]: distance functions and the scene
      of the falling rings.

    Numbers of type [ti.f32] are modelled by real numbers, so arithmetic is
    exact.  The one floating-point effect that is kept is division by zero.
    A division whose divisor is computed at run time and whose quotient is
    stored or used in further arithmetic goes through [tm.fdiv], which
    fails on a zero divisor: the failure ([None]) stands for the
    non-finite value (NaN or an infinity) that IEEE arithmetic produces
    there.  A quotient that goes straight into [tm.clamp] is a
    [tm.quotient], which keeps the infinity or the NaN, because the clamp
    turns it into a number again.  Divisions by a non-zero literal of the
    source are written with the total [/].  The module [f32] repeats the
    step of one firefly on binary32 numbers, where NaN can be seen.

    Taichi runs the outermost loop of a kernel in parallel.  The embedding
    runs it in index order; the properties proved are stated per particle
    or per pixel. *)

From Stdlib Require Import Reals Lra Lia ZArith String.
From Stdlib Require Floats.SpecFloat.
From stdpp Require Import gmap list.

Open Scope R_scope.

(** ** Comparisons on reals as decisions, and the loop combinator *)

#[global] Instance Rlt_decision : RelDecision Rlt := Rlt_dec.
#[global] Instance Rgt_decision : RelDecision Rgt := Rgt_dec.
#[global] Instance Req_decision : EqDecision R := Req_dec_T.

(** [for x in l: s = body(x, s)], where the body may fail. *)
Fixpoint for_each {A S : Type} (l : list A) (body : A → S → option S) (s : S)
  : option S :=
  match l with
  | [] => Some s
  | x :: l' => s' ← body x s; for_each l' body s'
  end.

(** [int(r)]: conversion of a float to an integer, rounding toward zero. *)
Definition trunc (r : R) : Z :=
  if decide (r < 0) then (- Int_part (- r))%Z else Int_part r.

(** ** [taichi.math]: the vector operations the sources use *)

Module tm.

Definition vec2 : Type := R * R.
Definition vec3 : Type := R * R * R.

(** Division by a run-time value. *)
Definition fdiv (a b : R) : option R :=
  if decide (b = 0) then None else Some (a / b).

Definition add2 (a b : vec2) : vec2 := (a.1 + b.1, a.2 + b.2).
Definition sub2 (a b : vec2) : vec2 := (a.1 - b.1, a.2 - b.2).
(** [v * k] and [v - k] with a scalar [k]. *)
Definition scale2 (v : vec2) (k : R) : vec2 := (v.1 * k, v.2 * k).
Definition sub2s (v : vec2) (k : R) : vec2 := (v.1 - k, v.2 - k).

Definition add3 (a b : vec3) : vec3 :=
  (a.1.1 + b.1.1, a.1.2 + b.1.2, a.2 + b.2).
Definition scale3 (v : vec3) (k : R) : vec3 := (v.1.1 * k, v.1.2 * k, v.2 * k).

Definition length (v : vec2) : R := sqrt (v.1 * v.1 + v.2 * v.2).

(** [tm.normalize(v) = v / length(v)], with no guard of its own. *)
Definition normalize (v : vec2) : option vec2 :=
  x ← fdiv v.1 (length v); y ← fdiv v.2 (length v); Some (x, y).

Definition clamp (x lo hi : R) : R := Rmin (Rmax x lo) hi.
Definition clamp3 (v : vec3) (lo hi : R) : vec3 :=
  (clamp v.1.1 lo hi, clamp v.1.2 lo hi, clamp v.2 lo hi).

(** The value of a float division [a / b]: a number, an infinity with its
    sign, or NaN. *)
Inductive quotient : Type :=
  | Finite (q : R)
  | Infinite (positive : bool)
  | NaN.

(** [a / b] with a divisor computed at run time.  A divisor of zero is
    [+0], which is what a difference of two equal numbers and a sum of
    squares are: the quotient is then an infinity with the sign of [a], and
    NaN when [a] is zero too. *)
Definition quot (a b : R) : quotient :=
  if decide (b = 0) then
    if decide (a = 0) then NaN else Infinite (bool_decide (a > 0))
  else Finite (a / b).

(** [tm.clamp(x, lo, hi)], which is [min(hi, max(lo, x))], on a quotient.
    [max] and [min] return the other operand when one is NaN, so the
    maximum of [lo] and NaN is [lo]. *)
Definition clampq (x : quotient) (lo hi : R) : R :=
  match x with
  | Finite q => clamp q lo hi
  | Infinite true => hi
  | Infinite false | NaN => Rmin lo hi
  end.

End tm.

(** ** [taskB_Gubanova.py] *)

Module taskB.
Import tm.

Definition res_x : Z := 1280.
(** [res_y = int(res_x / aspect_ratio)] with [aspect_ratio = 1 / 1]. *)
Definition res_y : Z := 1280.

Definition NUM_FIREFLIES : nat := 50.
Definition FIREFLY_RADIUS : R := 0.008.
Definition PULSE_SPEED : R := 5.0.
Definition MAX_PULSE_FACTOR : R := 1.5.
Definition MIN_PULSE_FACTOR : R := 0.5.
Definition FIREFLY_SPEED : R := 0.05.
Definition ATTRACTION_RADIUS : R := 0.2.
Definition ATTRACTION_STRENGTH : R := 0.0005.
Definition TRAIL_FADE_SPEED : R := 0.95.

(** [int(FIREFLY_RADIUS * MAX_PULSE_FACTOR * res_x * 1.5) + 2]: the
    product is 8/1000 * 15/10 * 1280 * 15/10 = 23.04. *)
Definition MAX_FIREFLY_PIXEL_RADIUS : Z :=
  ((8 * 15 * res_x * 15) `quot` (1000 * 10 * 10) + 2)%Z.

(** The four fields that hold the fireflies, one entry per firefly. *)
Record fireflies : Type := Fireflies {
  firefly_pos : list vec2;
  firefly_vel : list vec2;
  firefly_color : list vec3;
  firefly_offset : list R
}.

Definition sdf_circle (p center : vec2) (radius : R) : R :=
  length (sub2 p center) - radius.

Definition smoothstep (edge0 edge1 x : R) : R :=
  let t := clampq (quot (x - edge0) (edge1 - edge0)) 0.0 1.0 in
  t * t * (3.0 - 2.0 * t).

Definition smootherstep (edge0 edge1 x : R) : R :=
  let t := clampq (quot (x - edge0) (edge1 - edge0)) 0.0 1.0 in
  t * t * t * (t * (t * 6.0 - 15.0) + 10.0).

(** [mix_colors] is called on scalars and on colours. *)
Definition mix_colors (color1 color2 alpha : R) : R :=
  color1 * (1.0 - alpha) + color2 * alpha.
Definition mix_colors3 (color1 color2 : vec3) (alpha : R) : vec3 :=
  add3 (scale3 color1 (1.0 - alpha)) (scale3 color2 alpha).

(** *** [init_fireflies] *)

(** The results of the eight calls of [ti.random()] in one iteration of
    [init_fireflies], in the order of the calls. *)
Record init_draws : Type := InitDraws {
  pos_draw : R * R;
  dir_draw : R * R;
  color_draw : R * R * R;
  offset_draw : R
}.

(** The fields as they are declared: [NUM_FIREFLIES] entries, all zero. *)
Definition declared : fireflies :=
  {| firefly_pos := replicate NUM_FIREFLIES (0, 0);
     firefly_vel := replicate NUM_FIREFLIES (0, 0);
     firefly_color := replicate NUM_FIREFLIES (0, 0, 0);
     firefly_offset := replicate NUM_FIREFLIES 0 |}.

(** The body of the loop of [init_fireflies] for firefly [i]. *)
Definition init_firefly (random : nat → init_draws) (i : nat) (st : fireflies)
  : option fireflies :=
  let pos : vec2 := pos_draw (random i) in
  n ← normalize (sub2s (scale2 (dir_draw (random i)) 2.0) 1.0);
  let vel := scale2 n FIREFLY_SPEED in
  let color : vec3 := color_draw (random i) in
  let offset := offset_draw (random i) * PI * 2.0 in
  Some {| firefly_pos := <[i := pos]> (firefly_pos st);
          firefly_vel := <[i := vel]> (firefly_vel st);
          firefly_color := <[i := color]> (firefly_color st);
          firefly_offset := <[i := offset]> (firefly_offset st) |}.

Definition init_fireflies (random : nat → init_draws) : option fireflies :=
  for_each (seq 0 NUM_FIREFLIES) (init_firefly random) declared.

(** *** [update_fireflies] *)

(** The body of the inner loop for one [j ≠ i]: the new value of
    [attraction_force]. *)
Definition pair_force (current_pos other_pos attraction_force : vec2)
  : option vec2 :=
  let dist_vec := sub2 other_pos current_pos in
  let dist := length dist_vec in
  if decide (dist < ATTRACTION_RADIUS ∧ dist > 1e-5) then
    let force_magnitude :=
      smootherstep 0.0 ATTRACTION_RADIUS dist * ATTRACTION_STRENGTH in
    force_magnitude ←
      (if decide (dist < FIREFLY_RADIUS * 2.0)
       then fdiv (- ATTRACTION_STRENGTH * 2.0) dist
       else Some force_magnitude);
    n ← normalize dist_vec;
    Some (add2 attraction_force (scale2 n force_magnitude))
  else Some attraction_force.

(** The inner loop over [j]. *)
Definition net_force (pos : list vec2) (i : nat) (current_pos : vec2)
  : option vec2 :=
  for_each (seq 0 NUM_FIREFLIES)
    (λ j attraction_force,
       if decide (i ≠ j) then
         other_pos ← pos !! j;
         pair_force current_pos other_pos attraction_force
       else Some attraction_force)
    (0.0, 0.0).

(** One axis of the boundary test: the new position and velocity
    components.  The source writes it out once for [x] and once for [y]. *)
Definition bounce (p v : R) : R * R :=
  if decide (p < 0.0) then (0.0, v * -1.0)
  else if decide (p > 1.0) then (1.0, v * -1.0)
  else (p, v).

(** Lines 124 to 141: from the position, the velocity, the accumulated
    force and the two random draws to the new position and velocity. *)
Definition move (current_pos vel attraction_force : vec2) (rnd : R * R)
  : option (vec2 * vec2) :=
  let vel := add2 vel attraction_force in
  let random_dir_change := scale2 (sub2s (scale2 rnd 2.0) 1.0) 0.005 in
  let vel := add2 vel random_dir_change in
  n ← normalize vel;
  let vel := scale2 n FIREFLY_SPEED in
  let pos := add2 current_pos vel in
  let '(px, vx) := bounce pos.1 vel.1 in
  let '(py, vy) := bounce pos.2 vel.2 in
  Some ((px, py), (vx, vy)).

(** The body of the outer loop for firefly [i]; [random i] holds the two
    results of [ti.random()] of that iteration. *)
Definition update_firefly (random : nat → R * R) (i : nat) (st : fireflies)
  : option fireflies :=
  current_pos ← firefly_pos st !! i;
  attraction_force ← net_force (firefly_pos st) i current_pos;
  vel ← firefly_vel st !! i;
  '(pos, vel) ← move current_pos vel attraction_force (random i);
  Some {| firefly_pos := <[i := pos]> (firefly_pos st);
          firefly_vel := <[i := vel]> (firefly_vel st);
          firefly_color := firefly_color st;
          firefly_offset := firefly_offset st |}.

Definition update_fireflies (t : R) (random : nat → R * R) (st : fireflies)
  : option fireflies :=
  for_each (seq 0 NUM_FIREFLIES) (update_firefly random) st.

(** *** [render] *)

(** The first loop: [pixels[i, j] *= TRAIL_FADE_SPEED]. *)
Definition fade (pixels : gmap (Z * Z) vec3) : gmap (Z * Z) vec3 :=
  (λ c, scale3 c TRAIL_FADE_SPEED) <$> pixels.

Definition pulse_factor (t offset : R) : R :=
  sin (t * PULSE_SPEED + offset) * 0.5 + 0.5.

Definition current_radius (t offset : R) : R :=
  FIREFLY_RADIUS
  * mix_colors MIN_PULSE_FACTOR MAX_PULSE_FACTOR (pulse_factor t offset).

(** The body of the two offset loops for one pixel. *)
Definition splat_pixel (t : R) (ff_pos : vec2) (ff_color : vec3)
    (offset : R) (x_offset y_offset : Z) (pixels : gmap (Z * Z) vec3)
  : option (gmap (Z * Z) vec3) :=
  let pixel_x := trunc (ff_pos.1 * IZR res_x) in
  let pixel_y := trunc (ff_pos.2 * IZR res_y) in
  let current_pixel_x := (pixel_x + x_offset)%Z in
  let current_pixel_y := (pixel_y + y_offset)%Z in
  if decide ((0 ≤ current_pixel_x < res_x)%Z
             ∧ (0 ≤ current_pixel_y < res_y)%Z) then
    let p := (IZR current_pixel_x / IZR res_x,
              IZR current_pixel_y / IZR res_y) in
    let dist := sdf_circle p ff_pos (current_radius t offset) in
    if decide (dist < current_radius t offset * 1.0) then
      let alpha_smooth :=
        1.0 - smoothstep 0.0 (current_radius t offset * 0.5) dist in
      let pulsing_color :=
        mix_colors3 ff_color (1.0, 1.0, 1.0) (pulse_factor t offset * 0.7) in
      Some (alter
              (λ c, add3 c (scale3 (scale3 pulsing_color alpha_smooth) 0.5))
              (current_pixel_x, current_pixel_y) pixels)
    else Some pixels
  else Some pixels.

Definition offsets : list Z :=
  seqZ (- MAX_FIREFLY_PIXEL_RADIUS) (MAX_FIREFLY_PIXEL_RADIUS + 1
                                     - - MAX_FIREFLY_PIXEL_RADIUS).

(** The body of the loop over the fireflies. *)
Definition splat_firefly (t : R) (st : fireflies) (i_ff : nat)
    (pixels : gmap (Z * Z) vec3) : option (gmap (Z * Z) vec3) :=
  ff_pos ← firefly_pos st !! i_ff;
  ff_color ← firefly_color st !! i_ff;
  offset ← firefly_offset st !! i_ff;
  for_each offsets
    (λ x_offset pixels,
       for_each offsets
         (λ y_offset pixels,
            splat_pixel t ff_pos ff_color offset x_offset y_offset pixels)
         pixels)
    pixels.

Definition render (t : R) (st : fireflies) (pixels : gmap (Z * Z) vec3)
  : option (gmap (Z * Z) vec3) :=
  for_each (seq 0 NUM_FIREFLIES) (splat_firefly t st) (fade pixels).

End taskB.

(** ** [gui.py] *)

Module gui.
Import tm.

(** A Taichi vector field of RGB triples.  [shape = None] is a field that
    was declared without a shape: it has no cells. *)
Record field : Type := Field {
  shape : option (Z * Z);
  data : gmap (Z * Z) vec3
}.

(** The indices of a field of shape [s], in the order of [ti.grouped]. *)
Definition indices (s : Z * Z) : list (Z * Z) :=
  i ← seqZ 0 s.1; j ← seqZ 0 s.2; [(i, j)].

(** [ti.Vector.field(3, dtype=ti.f32, shape=shape)].  Taichi refuses a
    dimension that is not positive ("Every dimension of a Taichi field
    should be positive") or that does not fit a 32-bit signed integer,
    fills a new field with zeros, and leaves a field declared with
    [shape=None] without cells.  The memory that a field takes is not
    modelled. *)
Definition Vector_field (shape : option (Z * Z)) : option field :=
  match shape with
  | None => Some (Field None ∅)
  | Some s =>
      if decide ((0 < s.1 < 2 ^ 31)%Z ∧ (0 < s.2 < 2 ^ 31)%Z) then
        Some (Field (Some s)
                (list_to_map ((λ c, (c, (0, 0, 0))) <$> indices s)))
      else None
  end.

(** [ti.grouped(f)]: a kernel cannot loop over a field without cells. *)
Definition grouped (f : field) : option (list (Z * Z)) :=
  indices <$> shape f.

Record BaseShader : Type := MkBaseShader {
  title : string;
  res : Z * Z;
  resf : vec2;
  pixels : field;
  gamma : R
}.

Record TwoPassShader : Type := MkTwoPassShader {
  base :> BaseShader;
  buffer : field
}.

(** [BaseShader.__init__] *)
Definition BaseShader_init (title : string) (res : option (Z * Z))
    (gamma : R) : option BaseShader :=
  let self_res := match res with Some r => r | None => (1000, 563)%Z end in
  pixels ← Vector_field (Some self_res);
  Some (MkBaseShader title self_res (IZR self_res.1, IZR self_res.2)
          pixels gamma).

(** [TwoPassShader.__init__]: the buffer is declared with [shape=res]. *)
Definition TwoPassShader_init (title : string) (res : option (Z * Z))
    (gamma : R) : option TwoPassShader :=
  self ← BaseShader_init title res gamma;
  buffer ← Vector_field res;
  Some (MkTwoPassShader self buffer).

(** The method a scene overrides. *)
Class Shader : Type := { main_image : vec2 → R → vec3 }.

(** [BaseShader.main_image]: [col = vec3(0.); col.rg = uv + 0.5]. *)
Definition BaseShader_main_image : Shader :=
  {| main_image := λ uv t, (uv.1 + 0.5, uv.2 + 0.5, 0) |}.

Definition set_pixels (s : BaseShader) (d : gmap (Z * Z) vec3)
  : BaseShader :=
  MkBaseShader (title s) (res s) (resf s)
    (Field (shape (pixels s)) d) (gamma s).

Definition set_buffer (s : TwoPassShader) (d : gmap (Z * Z) vec3)
  : TwoPassShader :=
  MkTwoPassShader (base s) (Field (shape (buffer s)) d).

(** [fragCoord // 16 * 16], on both components. *)
Definition snap (fragCoord : Z * Z) : Z * Z :=
  (fragCoord.1 `div` 16 * 16, fragCoord.2 `div` 16 * 16)%Z.

Section kernels.
(** [**] on floats is left abstract. *)
Context (pow : R → R → R) {scene : Shader}.

Definition pow3 (v : vec3) (e : R) : vec3 :=
  (pow v.1.1 e, pow v.1.2 e, pow v.2 e).

(** [uv = (fragCoord - 0.5 * self.resf) / self.resf.y] *)
Definition frag_uv (resf : vec2) (fragCoord : Z * Z) : option vec2 :=
  x ← fdiv (IZR fragCoord.1 - 0.5 * resf.1) resf.2;
  y ← fdiv (IZR fragCoord.2 - 0.5 * resf.2) resf.2;
  Some (x, y).

(** The exponent [1 / self.gamma] of the gamma step.  Both operands are
    Python numbers, so Python does the division when the kernel is
    compiled, at its first call: once, before any pixel is computed, and
    whatever the test [self.gamma > 0.0] gives.  With a gamma of zero it
    raises [ZeroDivisionError], and the kernel does not run. *)
Definition exponent (gamma : R) : option R := fdiv 1 gamma.

(** The gamma step: [if self.gamma > 0.0: col = clamp(col ** (1 /
    self.gamma), 0., 1.)], with the exponent [e] computed beforehand. *)
Definition gamma_correct (gamma e : R) (col : vec3) : vec3 :=
  if decide (gamma > 0.0) then clamp3 (pow3 col e) 0 1 else col.

(** The loop body shared by [BaseShader.render] and [render_pass1]: the
    colour stored at [fragCoord]. *)
Definition fragment (s : BaseShader) (e t : R) (fragCoord : Z * Z)
  : option vec3 :=
  uv ← frag_uv (resf s) fragCoord;
  Some (gamma_correct (gamma s) e (main_image uv t)).

(** [BaseShader.render] *)
Definition render (s : BaseShader) (t : R) : option BaseShader :=
  e ← exponent (gamma s);
  idx ← grouped (pixels s);
  d ← for_each idx
        (λ fragCoord d,
           col ← fragment s e t fragCoord; Some (<[fragCoord := col]> d))
        (data (pixels s));
  Some (set_pixels s d).

Definition render_pass1 (s : TwoPassShader) (t : R)
  : option TwoPassShader :=
  e ← exponent (gamma s);
  idx ← grouped (buffer s);
  d ← for_each idx
        (λ fragCoord d,
           col ← fragment s e t fragCoord; Some (<[fragCoord := col]> d))
        (data (buffer s));
  Some (set_buffer s d).

(** [render_pass2]: reading a cell the buffer does not have fails. *)
Definition render_pass2 (s : TwoPassShader) (t : R)
  : option TwoPassShader :=
  idx ← grouped (pixels s);
  d ← for_each idx
        (λ fragCoord d,
           col ← data (buffer s) !! snap fragCoord;
           Some (<[fragCoord := col]> d))
        (data (pixels s));
  Some (MkTwoPassShader (set_pixels s d) (buffer s)).

(** [TwoPassShader.render] *)
Definition TwoPassShader_render (s : TwoPassShader) (t : R)
  : option TwoPassShader :=
  s ← render_pass1 s t; render_pass2 s t.

End kernels.

End gui.

(** ** The step of one firefly in binary32

    The statements of [update_fireflies] for one firefly on binary32
    numbers, the format of [ti.f32], with the operations of the IEEE
    standard as [SpecFloat] defines them: round to nearest, [0 / 0] is NaN,
    an operation on NaN gives NaN, and a comparison with NaN is false. *)

Module f32.
Import SpecFloat.

Definition prec : Z := 24.
Definition emax : Z := 128.

Definition add : spec_float → spec_float → spec_float := SFadd prec emax.
Definition sub : spec_float → spec_float → spec_float := SFsub prec emax.
Definition mul : spec_float → spec_float → spec_float := SFmul prec emax.
Definition div : spec_float → spec_float → spec_float := SFdiv prec emax.
Definition sqrt : spec_float → spec_float := SFsqrt prec emax.
Definition ltb : spec_float → spec_float → bool := SFltb.

Definition is_nan (x : spec_float) : bool :=
  match x with S754_nan => true | _ => false end.

(** The decimal literal [n / d] of the source: Python reads it as the
    nearest binary64 number, and Taichi stores that as a binary32 number. *)
Definition literal (n d : Z) : spec_float :=
  match SFdiv 53 1024 (binary_normalize 53 1024 n 0 false)
          (binary_normalize 53 1024 d 0 false) with
  | S754_finite s m e =>
      binary_normalize prec emax (cond_Zopp s (Zpos m)) e false
  | x => x
  end.

Definition FIREFLY_RADIUS : spec_float := literal 8 1000.
Definition FIREFLY_SPEED : spec_float := literal 5 100.
Definition ATTRACTION_RADIUS : spec_float := literal 2 10.
Definition ATTRACTION_STRENGTH : spec_float := literal 5 10000.

Definition vec2 : Type := spec_float * spec_float.

(** [ti.max] and [ti.min]: the other operand when one is NaN. *)
Definition max (a b : spec_float) : spec_float :=
  if is_nan a then b else if is_nan b then a else if ltb a b then b else a.
Definition min (a b : spec_float) : spec_float :=
  if is_nan a then b else if is_nan b then a else if ltb b a then b else a.

Definition clamp (x lo hi : spec_float) : spec_float := min hi (max lo x).

Definition length (v : vec2) : spec_float :=
  sqrt (add (mul v.1 v.1) (mul v.2 v.2)).

Definition normalize (v : vec2) : vec2 :=
  (div v.1 (length v), div v.2 (length v)).

Definition smootherstep (edge0 edge1 x : spec_float) : spec_float :=
  let t := clamp (div (sub x edge0) (sub edge1 edge0))
             (literal 0 1) (literal 1 1) in
  mul (mul (mul t t) t)
    (add (mul t (sub (mul t (literal 6 1)) (literal 15 1))) (literal 10 1)).

(** The products [FIREFLY_RADIUS * 2.0] and [-ATTRACTION_STRENGTH * 2.0]
    are products of Python numbers: [0.016] and [-0.001]. *)
Definition pair_force (current_pos other_pos attraction_force : vec2)
  : vec2 :=
  let dist_vec :=
    (sub other_pos.1 current_pos.1, sub other_pos.2 current_pos.2) in
  let dist := length dist_vec in
  if ltb dist ATTRACTION_RADIUS && ltb (literal 1 100000) dist then
    let force_magnitude :=
      mul (smootherstep (literal 0 1) ATTRACTION_RADIUS dist)
        ATTRACTION_STRENGTH in
    let force_magnitude :=
      if ltb dist (literal 16 1000) then div (literal (-1) 1000) dist
      else force_magnitude in
    let n := normalize dist_vec in
    (add attraction_force.1 (mul n.1 force_magnitude),
     add attraction_force.2 (mul n.2 force_magnitude))
  else attraction_force.

Definition net_force (pos : list vec2) (i : nat) (current_pos : vec2)
  : option vec2 :=
  for_each (seq 0 taskB.NUM_FIREFLIES)
    (λ j attraction_force,
       if decide (i ≠ j) then
         other_pos ← pos !! j;
         Some (pair_force current_pos other_pos attraction_force)
       else Some attraction_force)
    (literal 0 1, literal 0 1).

Definition bounce (p v : spec_float) : spec_float * spec_float :=
  if ltb p (literal 0 1) then (literal 0 1, mul v (literal (-1) 1))
  else if ltb (literal 1 1) p then (literal 1 1, mul v (literal (-1) 1))
  else (p, v).

Definition move (current_pos vel attraction_force rnd : vec2)
  : vec2 * vec2 :=
  let vel := (add vel.1 attraction_force.1, add vel.2 attraction_force.2) in
  let random_dir_change :=
    (mul (sub (mul rnd.1 (literal 2 1)) (literal 1 1)) (literal 5 1000),
     mul (sub (mul rnd.2 (literal 2 1)) (literal 1 1)) (literal 5 1000)) in
  let vel := (add vel.1 random_dir_change.1, add vel.2 random_dir_change.2) in
  let n := normalize vel in
  let vel := (mul n.1 FIREFLY_SPEED, mul n.2 FIREFLY_SPEED) in
  let pos := (add current_pos.1 vel.1, add current_pos.2 vel.2) in
  let '(px, vx) := bounce pos.1 vel.1 in
  let '(py, vy) := bounce pos.2 vel.2 in
  ((px, py), (vx, vy)).

(** The body of the outer loop for firefly [i]: its new position and
    velocity. *)
Definition update_firefly (random : nat → vec2) (i : nat)
    (pos vel : list vec2) : option (vec2 * vec2) :=
  current_pos ← pos !! i;
  attraction_force ← net_force pos i current_pos;
  v ← vel !! i;
  Some (move current_pos v attraction_force (random i)).

(** The state [halted] below and the draws [centred], in binary32. *)
Definition halted_pos : list vec2 :=
  replicate 50 (literal 5 10, literal 5 10).
Definition halted_vel : list vec2 :=
  replicate 50 (literal 0 1, literal 0 1).
Definition centred : nat → vec2 := λ _, (literal 5 10, literal 5 10).

End f32.

(** * The vocabulary of the properties *)

Import tm.
Import taskB.
Import gui.

(** [unit v] is [v / length v] with the total division: the value of
    [normalize v] when it has one. *)
Definition unit (v : vec2) : vec2 := (v.1 / length v, v.2 / length v).

(** The quintic ease of a distance [d] over [[0, r]]. *)
Definition quintic_ease (r d : R) : R :=
  let t := d / r in t * t * t * (t * (t * 6 - 15) + 10).

(** The three cases read with the zero case limited to distances strictly
    below [1e-5], so that a pair at distance exactly [1e-5] falls under the
    repulsion. *)
Definition pair_force_strict_epsilon : Prop :=
  ∀ cur other acc : vec2,
    let dv := sub2 other cur in
    let d := length dv in
    (ATTRACTION_RADIUS <= d ∨ d < 1e-5 → pair_force cur other acc = Some acc)
    ∧ (FIREFLY_RADIUS * 2 <= d < ATTRACTION_RADIUS →
       pair_force cur other acc
       = Some (add2 acc
                 (scale2 (unit dv)
                    (quintic_ease ATTRACTION_RADIUS d * ATTRACTION_STRENGTH))))
    ∧ (¬ d < 1e-5 → d < FIREFLY_RADIUS * 2 →
       pair_force cur other acc
       = Some (add2 acc
                 (scale2 (unit dv) (- (2 * ATTRACTION_STRENGTH / d))))).

(** The velocity before renormalisation: previous velocity, accumulated
    force and random change. *)
Definition raw_velocity (vel force : vec2) (rnd : R * R) : vec2 :=
  add2 (add2 vel force) (scale2 (sub2s (scale2 rnd 2.0) 1.0) 0.005).

(** The four fields have [NUM_FIREFLIES] entries. *)
Definition well_formed (st : fireflies) : Prop :=
  Datatypes.length (firefly_pos st) = NUM_FIREFLIES
  ∧ Datatypes.length (firefly_vel st) = NUM_FIREFLIES
  ∧ Datatypes.length (firefly_color st) = NUM_FIREFLIES
  ∧ Datatypes.length (firefly_offset st) = NUM_FIREFLIES.

(** What the two invariants of the step say about firefly [i]. *)
Definition has_speed (st : fireflies) (i : nat) : Prop :=
  ∃ v, firefly_vel st !! i = Some v ∧ length v = FIREFLY_SPEED.

Definition in_domain (st : fireflies) (i : nat) : Prop :=
  ∃ p, firefly_pos st !! i = Some p ∧ 0 <= p.1 <= 1 ∧ 0 <= p.2 <= 1.

(** Firefly 0 at the centre moves right at [FIREFLY_SPEED], with firefly 1
    at distance [1/150] to its right and firefly 2 at distance [0.01] to
    its left.  The others are in a corner, out of reach. *)
Definition stalled : fireflies :=
  {| firefly_pos :=
       (0.5, 0.5) :: (0.5 + 1 / 150, 0.5) :: (0.49, 0.5)
       :: replicate 47 (0, 0);
     firefly_vel := replicate 50 (0.05, 0);
     firefly_color := replicate 50 (1, 1, 1);
     firefly_offset := replicate 50 0 |}.

(** Both results of [ti.random()] are [0.5] in every iteration: the random
    change of direction is [(0, 0)]. *)
Definition centred : nat → R * R := λ _, (0.5, 0.5).

(** All fireflies at the centre, at rest.  No firefly acts on another, the
    guard [dist > 1e-5] skips a pair at distance zero, and the velocities
    are zero.  Every number of the state is a binary32 number. *)
Definition halted : fireflies :=
  {| firefly_pos := replicate 50 (0.5, 0.5);
     firefly_vel := replicate 50 (0, 0);
     firefly_color := replicate 50 (1, 1, 1);
     firefly_offset := replicate 50 0 |}.

(** The point of the unit square that pixel [c] stands for. *)
Definition pixel_point (c : Z * Z) : vec2 :=
  (IZR c.1 / IZR res_x, IZR c.2 / IZR res_y).

Definition on_screen (c : Z * Z) : Prop :=
  (0 ≤ c.1 < res_x)%Z ∧ (0 ≤ c.2 < res_y)%Z.

(** The pixels the two offset loops visit for a firefly at [ff_pos]. *)
Definition in_box (ff_pos : vec2) (c : Z * Z) : Prop :=
  (Z.abs (c.1 - trunc (ff_pos.1 * IZR res_x)) ≤ MAX_FIREFLY_PIXEL_RADIUS)%Z
  ∧ (Z.abs (c.2 - trunc (ff_pos.2 * IZR res_y)) ≤ MAX_FIREFLY_PIXEL_RADIUS)%Z.

(** The value of [smoothstep] when its edges differ. *)
Definition smooth (edge0 edge1 x : R) : R :=
  let t := clamp ((x - edge0) / (edge1 - edge0)) 0 1 in t * t * (3 - 2 * t).

(** The colour [pulsing_color * alpha_smooth * 0.5] added at pixel [c]. *)
Definition glow (t : R) (ff_pos : vec2) (ff_color : vec3) (offset : R)
    (c : Z * Z) : vec3 :=
  let r := current_radius t offset in
  let dist := sdf_circle (pixel_point c) ff_pos r in
  scale3
    (scale3 (mix_colors3 ff_color (1, 1, 1) (pulse_factor t offset * 0.7))
       (1 - smooth 0 (r * 0.5) dist))
    0.5.

(** What one firefly adds at pixel [c], if anything: the guards of
    [splat_pixel] in one place. *)
Definition splat_value (t : R) (ff_pos : vec2) (ff_color : vec3) (offset : R)
    (c : Z * Z) : option vec3 :=
  if decide (on_screen c
             ∧ sdf_circle (pixel_point c) ff_pos (current_radius t offset)
               < current_radius t offset * 1.0)
  then Some (glow t ff_pos ff_color offset c)
  else None.

Definition contribution (t : R) (st : fireflies) (i_ff : nat) (c : Z * Z)
  : option vec3 :=
  ff_pos ← firefly_pos st !! i_ff;
  ff_color ← firefly_color st !! i_ff;
  offset ← firefly_offset st !! i_ff;
  if decide (in_box ff_pos c) then splat_value t ff_pos ff_color offset c
  else None.

(** [v += a] when there is an [a]. *)
Definition blend (a : option vec3) (v : vec3) : vec3 :=
  match a with Some a => add3 v a | None => v end.

(** What the fireflies of [l], in that order, add to the value [v] of
    pixel [c]. *)
Definition splats (t : R) (st : fireflies) (l : list nat) (c : Z * Z)
    (v : vec3) : vec3 :=
  foldl (λ acc i_ff, blend (contribution t st i_ff c) acc) v l.


(** A field that has its cells. *)
Definition placed (f : field) (s : Z * Z) : Prop :=
  shape f = Some s ∧ ∀ c, c ∈ indices s → is_Some (data f !! c).

(** The pixel field has shape [sh], and every read [buffer[fragCoord // 16
    * 16]] of the second pass finds a cell of the buffer. *)
Definition resolvable (s : TwoPassShader) (sh : Z * Z) : Prop :=
  shape (pixels s) = Some sh
  ∧ ∀ x y, (0 ≤ x < sh.1)%Z → (0 ≤ y < sh.2)%Z →
      is_Some (data (buffer s) !! snap (x, y)).

(** A scene that shows the coordinate it is given. *)
Definition show_uv : Shader := {| main_image := λ uv t, (uv.1, uv.2, 0) |}.

(** A constructed shader of two by four pixels with a negative gamma,
    which switches the gamma correction off. *)
Definition tall_shader : BaseShader :=
  MkBaseShader "tall" (2, 4)%Z (IZR 2, IZR 4)
    (Field (Some (2, 4)%Z)
       (list_to_map ((λ c, (c, (0, 0, 0))) <$> indices (2, 4)%Z)))
    (-1).

(** The coordinate of a pixel read with the shorter axis as the divisor. *)
Definition uv_over_shorter_axis : Prop :=
  ∀ (pow : R → R → R) (scene : Shader) (title : string) (w h : Z)
    (gamma t : R) (s : BaseShader),
    gamma ≠ 0 →
    BaseShader_init title (Some (w, h)) gamma = Some s →
    ∃ s',
      render pow s t = Some s'
      ∧ ∀ x y, (0 ≤ x < w)%Z → (0 ≤ y < h)%Z →
          data (pixels s') !! (x, y)
          = Some (gamma_correct pow gamma (1 / gamma)
                    (main_image ((IZR x - IZR w / 2) / IZR (w `min` h),
                                 (IZR y - IZR h / 2) / IZR (w `min` h)) t)).

(** Construction read as a check of the whole configuration: a resolution
    that is not positive or a gamma of zero makes the constructor fail. *)
Definition invalid_configuration_rejected : Prop :=
  ∀ (title : string) (w h : Z) (gamma : R),
    (w ≤ 0)%Z ∨ (h ≤ 0)%Z ∨ gamma = 0 →
    BaseShader_init title (Some (w, h)) gamma = None.

(** A two-pass shader of twenty by three pixels whose buffer holds, in the
    cell [(x, y)], the colour [(x, y, 0)], and whose pixels are black. *)
Definition striped : TwoPassShader :=
  MkTwoPassShader
    (MkBaseShader "striped" (20, 3)%Z (IZR 20, IZR 3)
       (Field (Some (20, 3)%Z)
          (list_to_map ((λ c, (c, (0, 0, 0))) <$> indices (20, 3)%Z)))
       2.2)
    (Field (Some (20, 3)%Z)
       (list_to_map
          ((λ c : Z * Z, (c, (IZR c.1, IZR c.2, 0))) <$> indices (20, 3)%Z))).

(** A two-pass shader of twenty by three pixels, as constructed. *)
Definition blocky : TwoPassShader :=
  MkTwoPassShader
    (MkBaseShader "blocky" (20, 3)%Z (IZR 20, IZR 3)
       (Field (Some (20, 3)%Z)
          (list_to_map ((λ c, (c, (0, 0, 0))) <$> indices (20, 3)%Z)))
       2.2)
    (Field (Some (20, 3)%Z)
       (list_to_map ((λ c, (c, (0, 0, 0))) <$> indices (20, 3)%Z))).

(** * The vocabulary of the further properties *)

(** The value of [smootherstep] when its edges differ. *)
Definition smoother (edge0 edge1 x : R) : R :=
  let t := clamp ((x - edge0) / (edge1 - edge0)) 0 1 in
  t * t * t * (t * (t * 6 - 15) + 10).

(** All fireflies at the centre, moving right at [FIREFLY_SPEED]. *)
Definition clustered : fireflies :=
  {| firefly_pos := replicate 50 (0.5, 0.5);
     firefly_vel := replicate 50 (0.05, 0);
     firefly_color := replicate 50 (1, 1, 1);
     firefly_offset := replicate 50 0 |}.

(** The calls of [render] of the main loop, one per frame, each with the
    time and the state of the fireflies of that frame. *)
Definition render_frames (frames : list (R * fireflies))
    (pixels : gmap (Z * Z) vec3) : option (gmap (Z * Z) vec3) :=
  for_each frames (λ f pixels, taskB.render f.1 f.2 pixels) pixels.

(** The colour that the body of [BaseShader.render] stores at [fragCoord]
    when neither the height nor gamma is zero, written with the total
    division. *)
Definition shade (pow : R → R → R) {scene : Shader} (s : BaseShader) (t : R)
    (fragCoord : Z * Z) : vec3 :=
  let uv := ((IZR fragCoord.1 - 0.5 * (resf s).1) / (resf s).2,
             (IZR fragCoord.2 - 0.5 * (resf s).2) / (resf s).2) in
  if decide (gamma s > 0)
  then clamp3 (pow3 pow (main_image uv t) (1 / gamma s)) 0 1
  else main_image uv t.

(** ** [sdf.py] *)

Module sdf.

(** [a @ b] on two-component vectors. *)
Definition dot (a b : vec2) : R := a.1 * b.1 + a.2 * b.2.

Definition sd_circle (p : vec2) (r : R) : R := length p - r.

(** The quotient goes into [tm.clamp], so [sd_segment] has a value for
    every segment, a single point included. *)
Definition sd_segment (p a b : vec2) : option R :=
  let pa := sub2 p a in
  let ba := sub2 b a in
  let h := clampq (quot (dot pa ba) (dot ba ba)) 0.0 1.0 in
  Some (length (sub2 pa (scale2 ba h))).

Definition sd_box (p b : vec2) : R :=
  let d := (Rabs p.1 - b.1, Rabs p.2 - b.2) in
  length (Rmax d.1 0.0, Rmax d.2 0.0) + Rmin (Rmax d.1 d.2) 0.0.

(** [r] is a [vec4]: [r.xy] for the right corners, [r.zw] for the left. *)
Definition sd_roundbox (p b : vec2) (r : (R * R) * (R * R)) : R :=
  let rr := r.2 in
  let rr := if decide (p.1 > 0.0) then r.1 else rr in
  let rr := if decide (p.2 < 0.0) then (rr.2, rr.2) else rr in
  let q := (Rabs p.1 - b.1 + rr.1, Rabs p.2 - b.2 + rr.1) in
  Rmin (Rmax q.1 q.2) 0.0 + length (Rmax q.1 0.0, Rmax q.2 0.0) - rr.1.

End sdf.

(** ** [taskA_Gubanova.py] *)

Module taskA.

(** The functions of [taichi.math] that [main_image] calls. *)
Definition floor (x : R) : R := IZR (Int_part x).
Definition fract (x : R) : R := x - floor x.
Definition mix (x y a : R) : R := x * (1 - a) + y * a.
Definition mix3 (x y : vec3) (a : R) : vec3 :=
  (mix x.1.1 y.1.1 a, mix x.1.2 y.1.2 a, mix x.2 y.2 a).
Definition smoothstep (edge0 edge1 x : R) : R :=
  let t := clampq (quot (x - edge0) (edge1 - edge0)) 0.0 1.0 in
  t * t * (3.0 - 2.0 * t).

(** [colors.black] *)
Definition black : vec3 := (0.0, 0.0, 0.0).

Record FallingRingsShader : Type := MkFallingRingsShader {
  base :> BaseShader;
  grid_scale : vec2;
  speed : R;
  speed_variation : R;
  ring_radius : R;
  line_width : R;
  softness : R;
  pulse_amplitude : R;
  pulse_frequency : R;
  inner_circle_radius_factor : R;
  inner_circle_probability : R;
  inner_color_mix_factor : R;
  inner_pulse_amplitude : R;
  inner_pulse_frequency : R
}.

(** [FallingRingsShader.__init__]; [res = None] stands for the argument
    left out, which defaults to [(800, 800)]. *)
Definition FallingRingsShader_init (title : string) (res : option (Z * Z))
  : option FallingRingsShader :=
  let res := match res with Some r => r | None => (800, 800)%Z end in
  self ← BaseShader_init title (Some res) 2.2;
  Some (MkFallingRingsShader self (20.0, 20.0) 1.0 0.9 0.35 0.03 0.01
          0.04 7.0 0.4 0.4 0.5 0.03 8.0).

Section main_image.
(** [core.hash22] is not among the sources: it is left abstract. *)
Context (hash22 : vec2 → vec2).

Definition main_image (self : FallingRingsShader) (uv : vec2) (t : R)
  : option vec3 :=
  let uv_scaled := (uv.1 * (grid_scale self).1, uv.2 * (grid_scale self).2) in
  let column_id := floor uv_scaled.1 in
  let column_speed_hash := (hash22 (column_id, 1.0)).1 in
  let speed_multiplier :=
    1.0 - speed_variation self
    + column_speed_hash * (2.0 * speed_variation self) in
  let current_column_speed := speed self * speed_multiplier in
  let column_start_offset := (hash22 (column_id, 0.0)).1 * 100.0 in
  let virtual_y_in_grid :=
    uv_scaled.2 + t * current_column_speed + column_start_offset in
  let current_id := (column_id, floor virtual_y_in_grid) in
  let p := (fract uv_scaled.1 - 0.5, fract virtual_y_in_grid - 0.5) in
  let h := hash22 current_id in
  let animated_radius_outer :=
    ring_radius self
    + sin (t * pulse_frequency self + h.2 * PI * 2.0) * pulse_amplitude self in
  let animated_radius_outer :=
    Rmax animated_radius_outer (line_width self * 1.5) in
  let outer_color : vec3 :=
    (fract (h.1 * 2.3), fract (h.2 * 3.4), fract ((h.1 + h.2) * 4.5)) in
  let outer_color :=
    mix3 outer_color
      (1.0 - outer_color.1.1, 1.0 - outer_color.1.2, 1.0 - outer_color.2)
      0.2 in
  let d_outer :=
    Rabs (sdf.sd_circle p animated_radius_outer) - line_width self in
  let alpha_outer := smoothstep 0.0 (softness self) (- d_outer) in
  let final_color := black in
  let final_color := mix3 final_color outer_color alpha_outer in
  if decide (fract (h.1 + h.2 * 7.1) < inner_circle_probability self) then
    let base_inner_radius :=
      ring_radius self * inner_circle_radius_factor self in
    let animated_radius_inner :=
      base_inner_radius
      + sin (t * inner_pulse_frequency self + h.1 * PI * 2.0)
        * inner_pulse_amplitude self in
    let animated_radius_inner := Rmax animated_radius_inner 0.005 in
    let inner_color : vec3 :=
      (fract (h.2 * 5.6), fract (h.1 * 6.7), fract ((h.1 - h.2) * 7.8)) in
    let inner_color :=
      mix3 inner_color
        (1.0 - inner_color.1.1, 1.0 - inner_color.1.2, 1.0 - inner_color.2)
        0.2 in
    let inner_color :=
      mix3 inner_color outer_color (inner_color_mix_factor self) in
    let d_inner := sdf.sd_circle p animated_radius_inner in
    let alpha_inner := smoothstep 0.0 (softness self) (- d_inner) in
    Some (mix3 final_color inner_color alpha_inner)
  else Some final_color.

End main_image.

End taskA.

(** A falling-rings shader of eight by eight pixels, as constructed. *)
Definition rings : taskA.FallingRingsShader :=
  taskA.MkFallingRingsShader
    (MkBaseShader "rings" (8, 8)%Z (IZR 8, IZR 8)
       (Field (Some (8, 8)%Z)
          (list_to_map ((λ c, (c, (0, 0, 0))) <$> indices (8, 8)%Z)))
       2.2)
    (20.0, 20.0) 1.0 0.9 0.35 0.03 0.01 0.04 7.0 0.4 0.4 0.5 0.03 8.0.

(** The point of the segment from [a] to [b] at the parameter [s]. *)
Definition along (a b : vec2) (s : R) : vec2 := add2 a (scale2 (sub2 b a) s).

(** Every channel of a colour lies between [lo] and [hi]. *)
Definition channels_within (lo hi : R) (c : vec3) : Prop :=
  lo <= c.1.1 <= hi ∧ lo <= c.1.2 <= hi ∧ lo <= c.2 <= hi.

(** * Properties *)

(** ** Divisions and vectors *)

Lemma fdiv_Some (a b : R) : b ≠ 0 → fdiv a b = Some (a / b).
Proof. intros Hb. unfold fdiv. by rewrite decide_False. Qed.

Lemma fdiv_zero (a : R) : fdiv a 0 = None.
Proof. unfold fdiv. by rewrite decide_True. Qed.

Lemma quot_Finite (a b : R) : b ≠ 0 → quot a b = Finite (a / b).
Proof. intros Hb. unfold quot. by rewrite decide_False. Qed.

(** A quotient with a divisor that is not zero is clamped as a number. *)
Lemma clampq_quot (a b lo hi : R) :
  b ≠ 0 → clampq (quot a b) lo hi = clamp (a / b) lo hi.
Proof. intros Hb. by rewrite quot_Finite. Qed.

(** With a divisor of zero the clamp returns a bound: the upper one for a
    positive dividend, the lower one otherwise. *)
Lemma clampq_quot_zero (a lo hi : R) :
  lo <= hi → clampq (quot a 0) lo hi = if decide (a > 0) then hi else lo.
Proof.
  intros Hle. unfold quot. rewrite decide_True by done.
  destruct (decide (a = 0)) as [->|Ha]; simpl.
  - rewrite decide_False by lra. by apply Rmin_left.
  - destruct (decide (a > 0)) as [Hp|Hp].
    + by rewrite bool_decide_eq_true_2.
    + rewrite bool_decide_eq_false_2 by done. by apply Rmin_left.
Qed.

Lemma length_nonneg (v : vec2) : 0 <= length v.
Proof. apply sqrt_pos. Qed.

Lemma length_sqr (v : vec2) : length v * length v = v.1 * v.1 + v.2 * v.2.
Proof. unfold length. apply sqrt_sqrt. nra. Qed.

Lemma length_zero_iff (v : vec2) : length v = 0 ↔ v = (0, 0).
Proof.
  split.
  - intros H0. pose proof (length_sqr v) as Hs. rewrite H0 in Hs.
    destruct v as [x y]; simpl in *. f_equal; nra.
  - intros ->. unfold length; simpl.
    replace (0 * 0 + 0 * 0) with 0 by ring. apply sqrt_0.
Qed.

Lemma length_lt_iff (v : vec2) (c : R) :
  0 <= c → length v < c ↔ v.1 * v.1 + v.2 * v.2 < c * c.
Proof.
  intros Hc. pose proof (length_nonneg v). pose proof (length_sqr v).
  split; intros Hlt; nra.
Qed.

(** A vector along the first axis. *)
Lemma length_axis (x : R) : 0 <= x → length (x, 0) = x.
Proof.
  intros Hx. unfold length; simpl.
  replace (x * x + 0 * 0) with (x * x) by ring. by apply sqrt_square.
Qed.

Lemma normalize_Some (v : vec2) : length v ≠ 0 → normalize v = Some (unit v).
Proof.
  intros Hl. unfold normalize. rewrite !fdiv_Some by done. reflexivity.
Qed.

Lemma normalize_zero : normalize (0, 0) = None.
Proof.
  unfold normalize.
  replace (length (0, 0)) with 0 by (symmetry; by apply length_zero_iff).
  rewrite !fdiv_zero. reflexivity.
Qed.

Lemma normalize_is_Some (v : vec2) : is_Some (normalize v) ↔ v ≠ (0, 0).
Proof.
  rewrite <- length_zero_iff. split.
  - intros [n Hn] H0. unfold normalize in Hn. rewrite H0, !fdiv_zero in Hn.
    discriminate.
  - intros Hl. rewrite normalize_Some by done. by eexists.
Qed.

Lemma length_scale2 (v : vec2) (k : R) :
  length (scale2 v k) = length v * Rabs k.
Proof.
  unfold length, scale2; simpl.
  replace (v.1 * k * (v.1 * k) + v.2 * k * (v.2 * k))
    with ((v.1 * v.1 + v.2 * v.2) * (k * k)) by ring.
  rewrite sqrt_mult_alt by nra.
  f_equal. rewrite <- (sqrt_Rsqr_abs k). reflexivity.
Qed.

Lemma length_unit (v : vec2) : length v ≠ 0 → length (unit v) = 1.
Proof.
  intros Hl. pose proof (length_nonneg v) as Hn.
  assert (unit v = scale2 v (/ length v)) as -> by reflexivity.
  rewrite length_scale2, Rabs_pos_eq.
  - by field.
  - apply Rlt_le, Rinv_0_lt_compat. lra.
Qed.

(** The magnitude of [unit v * k]. *)
Lemma length_scaled_unit (v : vec2) (k : R) :
  length v ≠ 0 → length (scale2 (unit v) k) = Rabs k.
Proof. intros Hl. rewrite length_scale2, length_unit by done. ring. Qed.

(** ** The pairwise force *)

Lemma clamp_id (x lo hi : R) : lo <= x <= hi → clamp x lo hi = x.
Proof.
  intros [Hlo Hhi]. unfold clamp.
  rewrite Rmax_left by lra. by rewrite Rmin_left.
Qed.

Lemma smootherstep_within (d : R) :
  0 <= d <= ATTRACTION_RADIUS →
  smootherstep 0.0 ATTRACTION_RADIUS d = quintic_ease ATTRACTION_RADIUS d.
Proof.
  unfold ATTRACTION_RADIUS. intros Hd. unfold smootherstep.
  rewrite clampq_quot by lra. cbv zeta.
  replace ((d - 0.0) / (0.2 - 0.0)) with (d / 0.2) by lra.
  rewrite clamp_id by lra.
  unfold quintic_ease. lra.
Qed.

Lemma quintic_ease_pos (d : R) :
  0 < d <= ATTRACTION_RADIUS → 0 < quintic_ease ATTRACTION_RADIUS d.
Proof.
  unfold ATTRACTION_RADIUS, quintic_ease. intros Hd.
  assert (0 < d / 0.2 <= 1) as Ht by (split; lra).
  set (t := d / 0.2) in *. clearbody t. cbv zeta.
  assert (0 < t * (t * 6 - 15) + 10) by nra.
  assert (0 < t * t * t) by (repeat apply Rmult_lt_0_compat; lra).
  nra.
Qed.

(** The value [pair_force] adds for a pair at distance [d]: nothing
    outside [(1e-5, ATTRACTION_RADIUS)], the attraction from
    [2 * FIREFLY_RADIUS] on, the repulsion below. *)
Lemma pair_force_skip (cur other acc : vec2) :
  ATTRACTION_RADIUS <= length (sub2 other cur)
  ∨ length (sub2 other cur) <= 1e-5 →
  pair_force cur other acc = Some acc.
Proof.
  intros Hd. unfold pair_force. cbv zeta.
  rewrite decide_False; [done | lra].
Qed.

Lemma pair_force_attract (cur other acc : vec2) :
  FIREFLY_RADIUS * 2 <= length (sub2 other cur) < ATTRACTION_RADIUS →
  pair_force cur other acc
  = Some (add2 acc
            (scale2 (unit (sub2 other cur))
               (quintic_ease ATTRACTION_RADIUS (length (sub2 other cur))
                * ATTRACTION_STRENGTH))).
Proof.
  unfold FIREFLY_RADIUS. intros Hd. unfold pair_force. cbv zeta.
  rewrite decide_True by lra.
  rewrite smootherstep_within by (unfold ATTRACTION_RADIUS in *; lra).
  simpl. rewrite decide_False by (unfold FIREFLY_RADIUS; lra).
  simpl. rewrite normalize_Some by lra. reflexivity.
Qed.

Lemma pair_force_repel (cur other acc : vec2) :
  1e-5 < length (sub2 other cur) < FIREFLY_RADIUS * 2 →
  pair_force cur other acc
  = Some (add2 acc
            (scale2 (unit (sub2 other cur))
               (- (2 * ATTRACTION_STRENGTH / length (sub2 other cur))))).
Proof.
  unfold FIREFLY_RADIUS. intros Hd. unfold pair_force. cbv zeta.
  rewrite decide_True by (unfold ATTRACTION_RADIUS; lra).
  rewrite smootherstep_within by (unfold ATTRACTION_RADIUS in *; lra).
  simpl. rewrite decide_True by (unfold FIREFLY_RADIUS; lra).
  rewrite fdiv_Some by lra.
  simpl. rewrite normalize_Some by lra. simpl.
  do 3 f_equal. unfold ATTRACTION_STRENGTH, Rdiv. lra.
Qed.

(** The inner loop never divides by zero: the guard [dist > 1e-5] stands
    before every division by [dist]. *)
Lemma pair_force_total (cur other acc : vec2) :
  is_Some (pair_force cur other acc).
Proof.
  destruct (Rle_or_lt ATTRACTION_RADIUS (length (sub2 other cur))) as [?|Hr].
  { rewrite pair_force_skip by auto. by eexists. }
  destruct (Rle_or_lt (length (sub2 other cur)) 1e-5) as [?|He].
  { rewrite pair_force_skip by auto. by eexists. }
  destruct (Rle_or_lt (FIREFLY_RADIUS * 2) (length (sub2 other cur))) as [?|Hf].
  - rewrite pair_force_attract by auto. by eexists.
  - rewrite pair_force_repel by auto. by eexists.
Qed.

(** C1, as stated, fails for a pair at distance exactly [1e-5]: fireflies at
    [(0, 0)] and [(1e-5, 0)].  The distance is not below [1e-5] and is below
    [2 * FIREFLY_RADIUS], yet the guard [dist > 1e-5] skips the pair and the
    force stays [(0, 0)], where the repulsion would be [(-100, 0)]. *)
Lemma pair_force_at_epsilon :
  length (sub2 (1e-5, 0) (0, 0)) = 1e-5
  ∧ pair_force (0, 0) (1e-5, 0) (0, 0) = Some (0, 0)
  ∧ add2 (0, 0)
      (scale2 (unit (sub2 (1e-5, 0) (0, 0)))
         (- (2 * ATTRACTION_STRENGTH / length (sub2 (1e-5, 0) (0, 0)))))
    = (-100, 0)
  ∧ ¬ pair_force_strict_epsilon.
Proof.
  assert (length (sub2 (1e-5, 0) (0, 0)) = 1e-5) as Hd.
  { unfold sub2; simpl. replace (1e-5 - 0) with 1e-5 by lra.
    replace (0 - 0) with 0 by lra. apply length_axis. lra. }
  assert (pair_force (0, 0) (1e-5, 0) (0, 0) = Some (0, 0)) as Hp.
  { apply pair_force_skip. right. rewrite Hd. lra. }
  assert (add2 (0, 0)
            (scale2 (unit (sub2 (1e-5, 0) (0, 0)))
               (- (2 * ATTRACTION_STRENGTH
                   / length (sub2 (1e-5, 0) (0, 0)))))
          = (-100, 0)) as Hr.
  { unfold unit. rewrite Hd. unfold add2, scale2, sub2, ATTRACTION_STRENGTH.
    simpl. f_equal; lra. }
  split; [done|]. split; [done|]. split; [done|].
  intros Hclaim.
  destruct (Hclaim (0, 0) (1e-5, 0) (0, 0)) as (_ & _ & Hrep).
  rewrite Hp, Hr in Hrep. unfold FIREFLY_RADIUS in Hrep. rewrite Hd in Hrep.
  assert (Some (0, 0) = Some (-100, 0)) as Heq by (apply Hrep; lra).
  injection Heq. lra.
Qed.

(** C1 (amended): the value added to the force of firefly [i] for a firefly
    [j] at distance [d].  It is nothing when [d] is at least
    [ATTRACTION_RADIUS] or at most [1e-5].  From [2 * FIREFLY_RADIUS] up to
    [ATTRACTION_RADIUS] it is the unit vector from [i] to [j] times the
    quintic ease of [d] over [[0, ATTRACTION_RADIUS]] times
    [ATTRACTION_STRENGTH], a positive factor.  Between [1e-5] and
    [2 * FIREFLY_RADIUS] it is that unit vector times [- 2 *
    ATTRACTION_STRENGTH / d], a negative factor, and the attraction is not
    added. *)
Theorem pair_force_cases (cur other acc : vec2) :
  let dv := sub2 other cur in
  let d := length dv in
  let attraction := quintic_ease ATTRACTION_RADIUS d * ATTRACTION_STRENGTH in
  let repulsion := 2 * ATTRACTION_STRENGTH / d in
  (ATTRACTION_RADIUS <= d ∨ d <= 1e-5 → pair_force cur other acc = Some acc)
  ∧ (FIREFLY_RADIUS * 2 <= d < ATTRACTION_RADIUS →
     pair_force cur other acc = Some (add2 acc (scale2 (unit dv) attraction))
     ∧ 0 < attraction
     ∧ length (scale2 (unit dv) attraction) = attraction)
  ∧ (1e-5 < d < FIREFLY_RADIUS * 2 →
     pair_force cur other acc = Some (add2 acc (scale2 (unit dv) (- repulsion)))
     ∧ 0 < repulsion
     ∧ length (scale2 (unit dv) (- repulsion)) = repulsion).
Proof.
  cbv zeta. split; [apply pair_force_skip|]. split.
  - intros Hd. split; [by apply pair_force_attract|].
    assert (0 < quintic_ease ATTRACTION_RADIUS (length (sub2 other cur))
                * ATTRACTION_STRENGTH) as Hpos.
    { apply Rmult_lt_0_compat; [|unfold ATTRACTION_STRENGTH; lra].
      apply quintic_ease_pos. unfold FIREFLY_RADIUS in Hd. lra. }
    split; [done|].
    rewrite length_scaled_unit by (unfold FIREFLY_RADIUS in Hd; lra).
    apply Rabs_pos_eq. lra.
  - intros Hd. split; [by apply pair_force_repel|].
    assert (0 < 2 * ATTRACTION_STRENGTH / length (sub2 other cur)) as Hpos.
    { apply Rdiv_lt_0_compat; [unfold ATTRACTION_STRENGTH|]; lra. }
    split; [done|].
    rewrite length_scaled_unit by lra.
    rewrite Rabs_Ropp. apply Rabs_pos_eq. lra.
Qed.

(** ** One firefly's step: renormalisation and the boundary *)






Lemma move_eq (cur vel force : vec2) (rnd : R * R) :
  move cur vel force rnd
  = n ← normalize (raw_velocity vel force rnd);
    let v := scale2 n FIREFLY_SPEED in
    let b1 := bounce (cur.1 + v.1) v.1 in
    let b2 := bounce (cur.2 + v.2) v.2 in
    Some ((b1.1, b2.1), (b1.2, b2.2)).
Proof.
  unfold move, raw_velocity. cbv zeta.
  destruct (normalize _) as [n|]; simpl; [|done].
  by do 2 destruct (bounce _ _).
Qed.

(** The renormalisation has no guard: on the zero vector it divides by
    zero. *)
Lemma move_zero (cur vel force : vec2) (rnd : R * R) :
  raw_velocity vel force rnd = (0, 0) → move cur vel force rnd = None.
Proof. intros Hz. by rewrite move_eq, Hz, normalize_zero. Qed.



(** ** Loops *)

Lemma for_each_app {A S : Type} (l1 l2 : list A) (body : A → S → option S)
    (s : S) :
  for_each (l1 ++ l2) body s = for_each l1 body s ≫= for_each l2 body.
Proof.
  revert s. induction l1 as [|x l1 IH]; intros s; simpl; [done|].
  destruct (body x s); simpl; [apply IH | done].
Qed.

Lemma for_each_cons {A S : Type} (x : A) (l : list A)
    (body : A → S → option S) (s : S) :
  for_each (x :: l) body s = body x s ≫= for_each l body.
Proof. reflexivity. Qed.

Lemma bind_Some {A B : Type} (x : A) (f : A → option B) : Some x ≫= f = f x.
Proof. reflexivity. Qed.

(** A loop whose body changes nothing on the elements of [l]. *)
Lemma for_each_skip {A S : Type} (l : list A) (body : A → S → option S)
    (s : S) :
  (∀ x, x ∈ l → body x s = Some s) → for_each l body s = Some s.
Proof.
  induction l as [|x l IH]; intros Hb; simpl; [done|].
  rewrite Hb by left. simpl. apply IH. intros y Hy. apply Hb. by right.
Qed.

(** An invariant indexed by the position in [seq a n]. *)
Lemma for_each_seq_inv {St : Type} (P : nat → St → Prop)
    (body : nat → St → option St) (n a : nat) (s s' : St) :
  (∀ k t t', (a ≤ k < a + n)%nat → P k t → body k t = Some t' → P (k + 1)%nat t') →
  P a s → for_each (seq a n) body s = Some s' → P (a + n)%nat s'.
Proof.
  revert a s. induction n as [|n IH]; intros a s Hstep Ha Hrun; simpl in *.
  - injection Hrun as <-. by rewrite Nat.add_0_r.
  - destruct (body a s) as [t|] eqn:Hb; simpl in Hrun; [|done].
    replace (a + S n)%nat with (S a + n)%nat by lia.
    apply (IH (S a) t); [| |done].
    + intros k u u' Hk. apply Hstep. lia.
    + replace (S a) with (a + 1)%nat by lia. apply (Hstep a s t); [lia|done..].
Qed.

(** ** The kernel [update_fireflies] *)




(** ** A step on which the renormalisation divides by zero *)

Lemma stalled_well_formed : well_formed stalled.
Proof. repeat split. Defined.

Lemma halted_well_formed : well_formed halted.
Proof. repeat split. Defined.

(** No firefly of [halted] acts on another: every distance is zero, and
    the guard [dist > 1e-5] skips the pair. *)
Lemma net_force_halted (i : nat) :
  net_force (firefly_pos halted) i (0.5, 0.5) = Some (0, 0).
Proof.
  unfold net_force.
  replace ((0.0, 0.0) : vec2) with ((0, 0) : vec2) by (f_equal; lra).
  apply for_each_skip. intros j Hj. apply elem_of_seq in Hj.
  case_decide; [|done].
  assert (firefly_pos halted !! j = Some ((0.5, 0.5) : vec2)) as ->
    by (apply lookup_replicate_2; unfold NUM_FIREFLIES in Hj; lia).
  rewrite bind_Some. apply pair_force_skip. right.
  assert (length (sub2 (0.5, 0.5) (0.5, 0.5)) = 0) as ->; [|lra].
  apply length_zero_iff. unfold sub2; simpl. f_equal; lra.
Qed.

Lemma raw_velocity_halted (i : nat) :
  raw_velocity (0, 0) (0, 0) (centred i) = (0, 0).
Proof.
  unfold raw_velocity, centred, add2, scale2, sub2s. simpl. f_equal; lra.
Qed.

(** Firefly 0 is the first to be updated, and its update fails. *)
Lemma update_fireflies_halted (t : R) :
  update_fireflies t centred halted = None.
Proof.
  unfold update_fireflies.
  change (seq 0 NUM_FIREFLIES) with (0 :: seq 1 49)%nat.
  assert (update_firefly centred 0 halted = None) as Hu.
  { unfold update_firefly.
    change (firefly_pos halted !! 0%nat) with (Some ((0.5, 0.5) : vec2)).
    rewrite bind_Some, net_force_halted, bind_Some.
    change (firefly_vel halted !! 0%nat) with (Some ((0, 0) : vec2)).
    rewrite bind_Some.
    by rewrite move_zero by apply raw_velocity_halted. }
  simpl for_each. by rewrite Hu.
Qed.

(** The same step of firefly 0 in binary32: the force is computed from the
    positions, and both components of the new position and of the new
    velocity are NaN. *)
Lemma update_firefly_halted_f32 :
  f32.update_firefly f32.centred 0 f32.halted_pos f32.halted_vel
  = Some ((SpecFloat.S754_nan, SpecFloat.S754_nan),
          (SpecFloat.S754_nan, SpecFloat.S754_nan)).
Proof. by vm_compute. Qed.

(** C5: the renormalisation [tm.normalize(firefly_vel[i]) * FIREFLY_SPEED]
    has no guard.  When the previous velocity, the accumulated force and the
    random change add up to the zero vector it divides by zero, so the step
    has no finite result.  [halted] with the draws [centred] is such a
    state: no firefly acts on firefly 0, its velocity is [(0, 0)], the
    random change is [(0, 0)], and the kernel fails.  In binary32 the same
    step of firefly 0 leaves NaN in both components of its position and of
    its velocity.  The inner loop, in contrast, is guarded by [dist > 1e-5]
    and always has a result. *)
Theorem renormalisation_unguarded (t : R) :
  (∀ cur vel force rnd,
     raw_velocity vel force rnd = (0, 0) → move cur vel force rnd = None)
  ∧ net_force (firefly_pos halted) 0 (0.5, 0.5) = Some (0, 0)
  ∧ raw_velocity (0, 0) (0, 0) (centred 0%nat) = (0, 0)
  ∧ update_fireflies t centred halted = None
  ∧ f32.update_firefly f32.centred 0 f32.halted_pos f32.halted_vel
    = Some ((SpecFloat.S754_nan, SpecFloat.S754_nan),
            (SpecFloat.S754_nan, SpecFloat.S754_nan))
  ∧ (∀ cur other acc, is_Some (pair_force cur other acc)).
Proof.
  split; [apply move_zero|]. split; [apply net_force_halted|].
  split; [apply raw_velocity_halted|].
  split; [apply update_fireflies_halted|].
  split; [apply update_firefly_halted_f32|]. apply pair_force_total.
Qed.

(** C2: on [halted] with the draws [centred] the step yields no state in
    which every firefly has the speed [FIREFLY_SPEED]: in binary32 the
    velocity that the step writes for firefly 0 has the length NaN. *)
Theorem speed_lost_when_halted (t : R) :
  well_formed halted
  ∧ (¬ ∃ st', update_fireflies t centred halted = Some st'
              ∧ ∀ i, (i < NUM_FIREFLIES)%nat → has_speed st' i)
  ∧ ∃ p v,
      f32.update_firefly f32.centred 0 f32.halted_pos f32.halted_vel
      = Some (p, v)
      ∧ f32.length v = SpecFloat.S754_nan.
Proof.
  split; [apply halted_well_formed|]. split.
  - intros (st' & Hrun & _). by rewrite update_fireflies_halted in Hrun.
  - eexists _, _. split; [apply update_firefly_halted_f32|]. by vm_compute.
Qed.

(** C3: on [halted], where every position lies in the unit square before
    the step, the step with the draws [centred] yields no state in which
    every position does: in binary32 the position that the step writes for
    firefly 0 is NaN on both axes, which no boundary test catches and which
    is not between 0 and 1. *)
Theorem domain_lost_when_halted (t : R) :
  (∀ i, (i < NUM_FIREFLIES)%nat → in_domain halted i)
  ∧ (¬ ∃ st', update_fireflies t centred halted = Some st'
              ∧ ∀ i, (i < NUM_FIREFLIES)%nat → in_domain st' i)
  ∧ ∃ p v,
      f32.update_firefly f32.centred 0 f32.halted_pos f32.halted_vel
      = Some (p, v)
      ∧ f32.bounce p.1 v.1 = (p.1, v.1)
      ∧ f32.bounce p.2 v.2 = (p.2, v.2)
      ∧ SpecFloat.SFleb (f32.literal 0 1) p.1 = false
      ∧ SpecFloat.SFleb (f32.literal 0 1) p.2 = false.
Proof.
  split; [|split].
  - intros i Hi. exists (0.5, 0.5). split.
    + by apply lookup_replicate_2.
    + simpl. lra.
  - intros (st' & Hrun & _). by rewrite update_fireflies_halted in Hrun.
  - eexists _, _. split; [apply update_firefly_halted_f32|]. by vm_compute.
Qed.

(** ** The splat pass *)

Lemma pulse_factor_range (t offset : R) : 0 <= pulse_factor t offset <= 1.
Proof.
  unfold pulse_factor. pose proof (SIN_bound (t * PULSE_SPEED + offset)). lra.
Qed.

Lemma current_radius_range (t offset : R) :
  0.004 <= current_radius t offset <= 0.012.
Proof.
  pose proof (pulse_factor_range t offset).
  unfold current_radius, mix_colors, FIREFLY_RADIUS, MIN_PULSE_FACTOR,
    MAX_PULSE_FACTOR. lra.
Qed.

Lemma smoothstep_eq (edge0 edge1 x : R) :
  edge1 ≠ edge0 → smoothstep edge0 edge1 x = smooth edge0 edge1 x.
Proof.
  intros He. unfold smoothstep, smooth.
  rewrite clampq_quot by (intros Hz; apply He; lra). cbv zeta.
  replace (clamp ((x - edge0) / (edge1 - edge0)) 0.0 1.0)
    with (clamp ((x - edge0) / (edge1 - edge0)) 0 1)
    by (unfold clamp; do 2 f_equal; lra).
  lra.
Qed.

(** The body of the offset loops in terms of [splat_value]. *)
Lemma splat_pixel_eq (t : R) (ff_pos : vec2) (ff_color : vec3) (offset : R)
    (x_offset y_offset : Z) (pixels : gmap (Z * Z) vec3) :
  let c := ((trunc (ff_pos.1 * IZR res_x) + x_offset)%Z,
            (trunc (ff_pos.2 * IZR res_y) + y_offset)%Z) in
  splat_pixel t ff_pos ff_color offset x_offset y_offset pixels
  = Some (match splat_value t ff_pos ff_color offset c with
          | Some a => alter (λ v, add3 v a) c pixels
          | None => pixels
          end).
Proof.
  intros c. unfold splat_pixel, splat_value. cbv zeta. fold c.
  pose proof (current_radius_range t offset) as Hr.
  destruct (decide ((0 ≤ c.1 < res_x)%Z ∧ (0 ≤ c.2 < res_y)%Z)) as [Hs|Hs].
  - change (IZR (trunc (ff_pos.1 * IZR res_x) + x_offset) / IZR res_x,
            IZR (trunc (ff_pos.2 * IZR res_y) + y_offset) / IZR res_y)
      with (pixel_point c).
    rewrite decide_True by done.
    destruct (decide (sdf_circle (pixel_point c) ff_pos
                        (current_radius t offset)
                      < current_radius t offset * 1.0)) as [Hd|Hd].
    + rewrite decide_True by done.
      rewrite smoothstep_eq by lra.
      do 2 f_equal. unfold glow. cbv zeta.
      replace (smooth 0.0 (current_radius t offset * 0.5))
        with (smooth 0 (current_radius t offset * 0.5))
        by (f_equal; lra).
      by replace 1.0 with 1 by lra.
    + rewrite decide_False; [done|]. by intros [_ ?].
  - rewrite decide_False by done.
    rewrite decide_False; [done|]. by intros [? _].
Qed.

Lemma blend_None_fmap (o : option vec3) : blend None <$> o = o.
Proof. by destruct o. Qed.

(** A loop over [l] whose iterations write to disjoint sets of pixels
    ([hit x] for iteration [x]), each adding [val c] at the pixels [c] it
    writes to. *)
Lemma for_each_disjoint {A : Type} (l : list A) (hit : A → Z * Z → Prop)
    (val : Z * Z → option vec3)
    (body : A → gmap (Z * Z) vec3 → option (gmap (Z * Z) vec3)) :
  NoDup l →
  (∀ x y c, hit x c → hit y c → x = y) →
  (∀ x m, x ∈ l →
     ∃ m', body x m = Some m'
           ∧ ∀ c, (hit x c → m' !! c = blend (val c) <$> m !! c)
                  ∧ (¬ hit x c → m' !! c = m !! c)) →
  ∀ m, ∃ m', for_each l body m = Some m'
             ∧ ∀ c, ((∃ x, x ∈ l ∧ hit x c) →
                     m' !! c = blend (val c) <$> m !! c)
                    ∧ ((∀ x, x ∈ l → ¬ hit x c) → m' !! c = m !! c).
Proof.
  intros Hnd Hinj. induction l as [|x l IH]; intros Hbody m.
  - exists m. split; [done|]. intros c. split; [|done].
    intros (x & Hx & _). by apply elem_of_nil in Hx.
  - apply NoDup_cons in Hnd as [Hx Hnd].
    destruct (Hbody x m) as (m1 & Hm1 & Hc1); [by left|].
    destruct (IH Hnd) with (m := m1) as (m' & Hm' & Hc').
    { intros y n Hy. apply Hbody. by right. }
    exists m'. split; [by rewrite for_each_cons, Hm1|].
    intros c. destruct (Hc1 c) as [Hhit1 Hmiss1].
    destruct (Hc' c) as [Hhit' Hmiss']. split.
    + intros (y & Hy & Hyc). apply elem_of_cons in Hy as [->|Hy].
      * rewrite Hmiss'; [by apply Hhit1|].
        intros z Hz Hzc. apply Hx. by rewrite <- (Hinj z x c).
      * rewrite Hhit' by eauto. rewrite Hmiss1; [done|].
        intros Hxc. apply Hx. by rewrite (Hinj x y c).
    + intros Hall. rewrite Hmiss', Hmiss1; [done|..].
      * apply Hall. by left.
      * intros z Hz. apply Hall. by right.
Qed.

Lemma elem_of_offsets (k : Z) :
  k ∈ offsets ↔ (Z.abs k ≤ MAX_FIREFLY_PIXEL_RADIUS)%Z.
Proof. unfold offsets. rewrite elem_of_seqZ. lia. Qed.

(** One firefly's splat: its result at every pixel. *)
Lemma splat_firefly_lookup (t : R) (st : fireflies) (i_ff : nat)
    (pixels : gmap (Z * Z) vec3) :
  well_formed st → (i_ff < NUM_FIREFLIES)%nat →
  ∃ pixels', splat_firefly t st i_ff pixels = Some pixels'
             ∧ ∀ c, pixels' !! c
                    = blend (contribution t st i_ff c) <$> pixels !! c.
Proof.
  intros (Hp & _ & Hc & Ho) Hi. unfold splat_firefly, contribution.
  destruct (lookup_lt_is_Some_2 (firefly_pos st) i_ff) as [ff_pos ->];
    [by rewrite Hp|].
  destruct (lookup_lt_is_Some_2 (firefly_color st) i_ff) as [ff_color ->];
    [by rewrite Hc|].
  destruct (lookup_lt_is_Some_2 (firefly_offset st) i_ff) as [offset ->];
    [by rewrite Ho|].
  rewrite !bind_Some.
  set (px := trunc (ff_pos.1 * IZR res_x)).
  set (py := trunc (ff_pos.2 * IZR res_y)).
  set (val := splat_value t ff_pos ff_color offset).
  destruct (for_each_disjoint offsets
              (λ xo c, c.1 = (px + xo)%Z ∧ (c.2 - py)%Z ∈ offsets) val
              (λ x_offset pixels,
                 for_each offsets
                   (λ y_offset pixels,
                      splat_pixel t ff_pos ff_color offset x_offset y_offset
                        pixels) pixels)) with (m := pixels)
    as (pixels' & Hrun & Hlook).
  - apply NoDup_seqZ.
  - intros x y c [Hx _] [Hy _]. lia.
  - intros xo m _.
    destruct (for_each_disjoint offsets
                (λ yo c, c = ((px + xo)%Z, (py + yo)%Z)) val
                (λ y_offset pixels,
                   splat_pixel t ff_pos ff_color offset xo y_offset pixels))
      with (m := m) as (m' & Hrow & Hcell).
    + apply NoDup_seqZ.
    + intros x y c -> [= ?]. lia.
    + intros yo n _. rewrite splat_pixel_eq. eexists. split; [done|].
      fold px py val. intros c. split.
      * intros ->. destruct (val _); [by rewrite lookup_alter_eq|].
        by rewrite blend_None_fmap.
      * intros Hne. destruct (val _); [|done]. by rewrite lookup_alter_ne.
    + exists m'. split; [done|]. intros c. destruct (Hcell c) as [Hin Hout].
      split.
      * intros [Hx Hy]. apply Hin. exists (c.2 - py)%Z. split; [done|].
        destruct c as [cx cy]; simpl in *. f_equal; lia.
      * intros Hmiss. apply Hout. intros yo Hyo ->. apply Hmiss; simpl.
        split; [done|]. by replace (py + yo - py)%Z with yo by lia.
  - exists pixels'. split; [done|]. intros c. destruct (Hlook c) as [Hin Hout].
    rewrite !bind_Some.
    destruct (decide (in_box ff_pos c)) as [Hbox|Hbox].
    + apply Hin. destruct Hbox as [Hbx Hby]. fold px in Hbx. fold py in Hby.
      exists (c.1 - px)%Z. rewrite !elem_of_offsets. split; [done|].
      split; [lia|done].
    + rewrite blend_None_fmap. apply Hout. intros xo Hxo [Hx Hy].
      apply Hbox. unfold in_box. fold px py.
      apply elem_of_offsets in Hxo, Hy. split; [|done].
      by replace (c.1 - px)%Z with xo by lia.
Qed.

Lemma splat_loop_lookup (t : R) (st : fireflies) (l : list nat)
    (pixels : gmap (Z * Z) vec3) :
  well_formed st → Forall (λ i, (i < NUM_FIREFLIES)%nat) l →
  ∃ pixels', for_each l (splat_firefly t st) pixels = Some pixels'
             ∧ ∀ c, pixels' !! c = splats t st l c <$> pixels !! c.
Proof.
  intros Hwf Hl. revert pixels.
  induction Hl as [|i l Hi Hl IH]; intros pixels.
  - exists pixels. split; [done|]. intros c. unfold splats; simpl.
    by destruct (pixels !! c).
  - destruct (splat_firefly_lookup t st i pixels Hwf Hi) as (m1 & Hm1 & Hc1).
    destruct (IH m1) as (m' & Hm' & Hc').
    exists m'. split; [by rewrite for_each_cons, Hm1|].
    intros c. rewrite Hc', Hc1. unfold splats; simpl.
    by destruct (pixels !! c).
Qed.

Lemma splats_none (t : R) (st : fireflies) (l : list nat) (c : Z * Z)
    (v : vec3) :
  (∀ i, i ∈ l → contribution t st i c = None) → splats t st l c v = v.
Proof.
  unfold splats. revert v. induction l as [|i l IH]; intros v Hnone; [done|].
  simpl. rewrite (Hnone i) by left. simpl. apply IH.
  intros j Hj. apply Hnone. by right.
Qed.

(** C4: [render] has a result on every well-formed state.  Each pixel of
    the buffer is first multiplied by [TRAIL_FADE_SPEED]; the splats of the
    fireflies are then added to that product.  A pixel to which no firefly
    adds anything ends the frame at its previous value times
    [TRAIL_FADE_SPEED]. *)
Theorem render_fades_then_splats (t : R) (st : fireflies)
    (pixels : gmap (Z * Z) vec3) :
  well_formed st →
  ∃ pixels',
    taskB.render t st pixels = Some pixels'
    ∧ (∀ c, pixels' !! c
            = (λ v, splats t st (seq 0 NUM_FIREFLIES) c
                      (scale3 v TRAIL_FADE_SPEED)) <$> pixels !! c)
    ∧ (∀ c, (∀ i, (i < NUM_FIREFLIES)%nat → contribution t st i c = None) →
            pixels' !! c = (λ v, scale3 v TRAIL_FADE_SPEED) <$> pixels !! c).
Proof.
  intros Hwf. unfold taskB.render.
  destruct (splat_loop_lookup t st (seq 0 NUM_FIREFLIES) (fade pixels) Hwf)
    as (pixels' & Hrun & Hlook).
  { apply Forall_forall. intros i Hi. apply elem_of_seq in Hi. lia. }
  exists pixels'. split; [done|].
  assert (∀ c, pixels' !! c
               = (λ v, splats t st (seq 0 NUM_FIREFLIES) c
                         (scale3 v TRAIL_FADE_SPEED)) <$> pixels !! c) as Hall.
  { intros c. rewrite Hlook. unfold fade. rewrite lookup_fmap.
    by destruct (pixels !! c). }
  split; [done|]. intros c Hnone. rewrite Hall.
  destruct (pixels !! c) as [v|]; [|done].
  change (Some (splats t st (seq 0 NUM_FIREFLIES) c
                  (scale3 v TRAIL_FADE_SPEED))
          = Some (scale3 v TRAIL_FADE_SPEED)).
  f_equal. apply splats_none. intros i Hi. apply Hnone.
  apply elem_of_seq in Hi. lia.
Qed.

(** C4 on the state [stalled] and a buffer with one white pixel. *)
Lemma render_fades_then_splats_witness :
  ∃ pixels',
    taskB.render 0 stalled {[ (100, 100)%Z := (1, 1, 1) ]} = Some pixels'
    ∧ (∀ c, pixels' !! c
            = (λ v, splats 0 stalled (seq 0 NUM_FIREFLIES) c
                      (scale3 v TRAIL_FADE_SPEED))
              <$> ({[ (100, 100)%Z := (1, 1, 1) ]} : gmap (Z * Z) vec3) !! c)
    ∧ (∀ c, (∀ i, (i < NUM_FIREFLIES)%nat → contribution 0 stalled i c = None) →
            pixels' !! c
            = (λ v, scale3 v TRAIL_FADE_SPEED)
              <$> ({[ (100, 100)%Z := (1, 1, 1) ]} : gmap (Z * Z) vec3) !! c).
Proof.
  apply (render_fades_then_splats 0 stalled). apply stalled_well_formed.
Defined.

(** ** Which pixels a firefly reaches *)


Lemma trunc_640 : trunc (0.5 * IZR res_x) = 640%Z.
Proof.
  unfold trunc, res_x. rewrite decide_False by lra.
  symmetry. apply Int_part_spec. lra.
Qed.






(** ** Fields and kernels of [gui.py] *)

Lemma elem_of_indices (s c : Z * Z) :
  c ∈ indices s ↔ (0 ≤ c.1 < s.1)%Z ∧ (0 ≤ c.2 < s.2)%Z.
Proof.
  unfold indices. rewrite list_elem_of_bind. split.
  - intros (i & Hc & Hi). apply list_elem_of_bind in Hc as (j & Hc & Hj).
    apply list_elem_of_singleton in Hc as ->.
    apply elem_of_seqZ in Hi, Hj. simpl. lia.
  - intros [Hx Hy]. exists c.1. split; [|apply elem_of_seqZ; lia].
    apply list_elem_of_bind. exists c.2. split; [|apply elem_of_seqZ; lia].
    destruct c. apply list_elem_of_singleton. done.
Qed.

Lemma zeros_placed (sh : Z * Z) :
  placed (Field (Some sh) (list_to_map ((λ c, (c, (0, 0, 0))) <$> indices sh)))
    sh.
Proof.
  split; [done|]. simpl. intros c Hc.
  destruct (list_to_map _ !! c) eqn:Hl; [by eexists|].
  apply not_elem_of_list_to_map in Hl. exfalso. apply Hl.
  rewrite <- list_fmap_compose. apply list_elem_of_fmap. by exists c.
Qed.

Lemma Vector_field_placed (s : Z * Z) :
  (0 < s.1 < 2 ^ 31)%Z → (0 < s.2 < 2 ^ 31)%Z →
  ∃ f, Vector_field (Some s) = Some f ∧ placed f s.
Proof.
  intros Hw Hh. unfold Vector_field. rewrite decide_True by done.
  eexists. split; [done|]. apply zeros_placed.
Qed.

Lemma Vector_field_rejects (s : Z * Z) :
  (s.1 ≤ 0)%Z ∨ (s.2 ≤ 0)%Z → Vector_field (Some s) = None.
Proof.
  intros Hs. unfold Vector_field. rewrite decide_False; [done|lia].
Qed.

(** A loop that stores [val c] at every index [c] of [l]. *)
Lemma for_each_write (l : list (Z * Z)) (g : Z * Z → option vec3)
    (val : Z * Z → vec3) (d : gmap (Z * Z) vec3) :
  (∀ c, c ∈ l → g c = Some (val c)) →
  ∃ d', for_each l (λ c d, col ← g c; Some (<[c := col]> d)) d = Some d'
        ∧ (∀ c, c ∈ l → d' !! c = Some (val c))
        ∧ (∀ c, c ∉ l → d' !! c = d !! c).
Proof.
  revert d. induction l as [|k l IH]; intros d Hg.
  - exists d. split; [done|]. split; [|done].
    intros c Hc. by apply elem_of_nil in Hc.
  - destruct (IH (<[k := val k]> d)) as (d' & Hrun & Hin & Hout).
    { intros c Hc. apply Hg. by right. }
    exists d'. split; [|split].
    + rewrite for_each_cons. cbv beta. rewrite Hg by left. by rewrite !bind_Some.
    + intros c Hc. destruct (decide (c ∈ l)) as [Hl|Hl]; [by apply Hin|].
      apply elem_of_cons in Hc as [->|Hc]; [|done].
      rewrite Hout by done. apply lookup_insert_eq.
    + intros c Hc. apply not_elem_of_cons in Hc as [Hne Hc].
      rewrite Hout by done. by apply lookup_insert_ne.
Qed.

Lemma exponent_Some (gamma : R) : gamma ≠ 0 → exponent gamma = Some (1 / gamma).
Proof. apply fdiv_Some. Qed.

Lemma exponent_zero : exponent 0 = None.
Proof. apply fdiv_zero. Qed.

Lemma gamma_correct_eq (pow : R → R → R) (gamma : R) (col : vec3) :
  gamma_correct pow gamma (1 / gamma) col
  = if decide (gamma > 0) then clamp3 (pow3 pow col (1 / gamma)) 0 1
    else col.
Proof.
  unfold gamma_correct.
  destruct (decide (gamma > 0.0)) as [Hg|Hg].
  - by rewrite decide_True by lra.
  - by rewrite decide_False by lra.
Qed.

(** The coordinate handed to [main_image]: pixel minus half the resolution,
    over the height. *)
Lemma frag_uv_eq (w h : R) (c : Z * Z) :
  h ≠ 0 →
  frag_uv (w, h) c
  = Some ((IZR c.1 - 0.5 * w) / h, (IZR c.2 - 0.5 * h) / h).
Proof. intros Hh. unfold frag_uv. simpl. by rewrite !fdiv_Some. Qed.

Lemma BaseShader_init_Some (title : string) (res : option (Z * Z)) (gamma : R)
    (s : BaseShader) :
  BaseShader_init title res gamma = Some s →
  let r := match res with Some r => r | None => (1000, 563)%Z end in
  (0 < r.1)%Z ∧ (0 < r.2)%Z
  ∧ gui.res s = r ∧ resf s = (IZR r.1, IZR r.2)
  ∧ gui.gamma s = gamma ∧ gui.title s = title ∧ placed (pixels s) r.
Proof.
  unfold BaseShader_init. cbv zeta.
  set (r := match res with Some r => r | None => _ end).
  unfold Vector_field.
  destruct (decide ((0 < r.1 < 2 ^ 31)%Z ∧ (0 < r.2 < 2 ^ 31)%Z))
    as [[Hw Hh]|Hn]; [|done].
  rewrite bind_Some. intros [= <-]. simpl.
  split; [lia|]. split; [lia|]. do 4 (split; [done|]). apply zeros_placed.
Qed.

(** The constructor looks at the resolution alone: whether it returns a
    shader does not depend on gamma, and the gamma it is given is the gamma
    of the shader. *)
Lemma BaseShader_init_gamma (title : string) (res : option (Z * Z))
    (gamma gamma' : R) :
  is_Some (BaseShader_init title res gamma)
  → is_Some (BaseShader_init title res gamma').
Proof.
  unfold BaseShader_init. cbv zeta.
  destruct (Vector_field _) as [f|]; simpl.
  - intros _. by eexists.
  - by intros [? ?].
Qed.

(** ** The coordinate of a pixel *)

(** What [BaseShader.render] stores at the pixels of a constructed
    shader. *)
Lemma render_lookup (pow : R → R → R) {scene : Shader} (title : string)
    (w h : Z)
    (gamma t : R) (s : BaseShader) :
  gamma ≠ 0 →
  BaseShader_init title (Some (w, h)) gamma = Some s →
  ∃ s',
    render pow s t = Some s'
    ∧ ∀ x y, (0 ≤ x < w)%Z → (0 ≤ y < h)%Z →
        data (pixels s') !! (x, y)
        = Some (gamma_correct pow gamma (1 / gamma)
                  (main_image ((IZR x - 0.5 * IZR w) / IZR h,
                               (IZR y - 0.5 * IZR h) / IZR h) t)).
Proof.
  intros Hg Hinit.
  apply BaseShader_init_Some in Hinit
    as (Hw & Hh & _ & Hresf & Hgamma & _ & Hshape & _).
  simpl in *. unfold render, grouped.
  rewrite Hgamma, exponent_Some, bind_Some, Hshape by done. simpl.
  assert (IZR h ≠ 0) as Hh0 by (apply not_0_IZR; lia).
  destruct (for_each_write (indices (w, h)) (fragment pow s (1 / gamma) t)
              (λ c, gamma_correct pow gamma (1 / gamma)
                      (main_image ((IZR c.1 - 0.5 * IZR w) / IZR h,
                                   (IZR c.2 - 0.5 * IZR h) / IZR h) t))
              (data (pixels s))) as (d' & -> & Hin & _).
  { intros c _. unfold fragment.
    by rewrite Hresf, frag_uv_eq, bind_Some, Hgamma by done. }
  eexists. split; [done|]. intros x y Hx Hy. simpl.
  by rewrite Hin by (by apply elem_of_indices).
Qed.

Lemma tall_shader_init :
  BaseShader_init "tall" (Some (2, 4)%Z) (-1) = Some tall_shader.
Proof. reflexivity. Defined.

(** C8, as stated, fails for a window of two by four pixels: the scene
    [show_uv] gets [(-0.25, -0.5)] for the pixel [(0, 0)], the pixel minus
    half the resolution over the height 4, where the division by the shorter
    axis would give [(-0.5, -1)].  The gamma of the shader is negative, so
    the frame holds the colour of the scene as it is. *)
Lemma uv_of_tall_window :
  (∃ s', render (scene := show_uv) Rpower tall_shader 0 = Some s'
         ∧ data (pixels s') !! (0, 0)%Z = Some (-0.25, -0.5, 0))
  ∧ ¬ uv_over_shorter_axis.
Proof.
  assert (-1 ≠ 0) as Hg by lra.
  destruct (render_lookup (scene := show_uv) Rpower "tall" 2 4 (-1) 0
              tall_shader Hg tall_shader_init) as (s' & Hrun & Hlook).
  assert (data (pixels s') !! (0, 0)%Z = Some (-0.25, -0.5, 0)) as Hpix.
  { etrans; [apply Hlook; lia|]. rewrite gamma_correct_eq.
    rewrite decide_False by lra. simpl. do 3 f_equal; lra. }
  split; [by exists s'|].
  intros Hclaim.
  destruct (Hclaim Rpower show_uv "tall"%string 2%Z 4%Z (-1) 0 tall_shader
              Hg tall_shader_init) as (s2 & Hrun2 & Hlook2).
  rewrite Hrun in Hrun2. injection Hrun2 as <-.
  specialize (Hlook2 0%Z 0%Z ltac:(lia) ltac:(lia)).
  rewrite gamma_correct_eq, decide_False in Hlook2 by lra.
  assert (Some ((-0.25, -0.5, 0) : vec3)
          = Some (main_image (Shader := show_uv)
                    ((IZR 0 - IZR 2 / 2) / IZR (2 `min` 4),
                     (IZR 0 - IZR 4 / 2) / IZR (2 `min` 4)) 0)) as Heq
    by (by etrans; [symmetry; exact Hpix|]).
  simpl in Heq. injection Heq. change (2 `min` 4)%Z with 2%Z. lra.
Qed.

(** C8 (amended): for every window of positive width and height and every
    pixel that [render] computes, the coordinate passed to [main_image] is
    the pixel coordinate minus half the resolution, divided by the height.
    The vertical axis spans length 1, whatever the aspect ratio; this is the
    shorter axis when the height is at most the width.  The kernel runs
    when gamma is not zero. *)
Theorem render_coordinates (pow : R → R → R) {scene : Shader} (title : string)
    (w h : Z) (gamma t : R) (s : BaseShader) :
  gamma ≠ 0 →
  BaseShader_init title (Some (w, h)) gamma = Some s →
  (0 < w)%Z ∧ (0 < h)%Z
  ∧ ∃ s',
      render pow s t = Some s'
      ∧ ∀ x y, (0 ≤ x < w)%Z → (0 ≤ y < h)%Z →
          data (pixels s') !! (x, y)
          = Some (gamma_correct pow gamma (1 / gamma)
                    (main_image ((IZR x - 0.5 * IZR w) / IZR h,
                                 (IZR y - 0.5 * IZR h) / IZR h) t))
          ∧ - 0.5 <= (IZR y - 0.5 * IZR h) / IZR h < 0.5.
Proof.
  intros Hg Hinit.
  destruct (BaseShader_init_Some _ _ _ _ Hinit) as (Hw & Hh & _).
  simpl in Hw, Hh. split; [done|]. split; [done|].
  destruct (render_lookup pow title w h gamma t s Hg Hinit)
    as (s' & Hrun & Hlook).
  exists s'. split; [done|]. intros x y Hx Hy. split; [by apply Hlook|].
  assert (0 < IZR h) as Hh0 by (by apply IZR_lt).
  assert (0 <= IZR y < IZR h) as [Hy0 Hy1]
    by (split; [apply IZR_le | apply IZR_lt]; lia).
  split.
  - apply Rmult_le_reg_r with (r := IZR h); [done|].
    unfold Rdiv. rewrite Rmult_assoc, Rinv_l by lra. lra.
  - apply Rmult_lt_reg_r with (r := IZR h); [done|].
    unfold Rdiv. rewrite Rmult_assoc, Rinv_l by lra. lra.
Qed.

(** C8 (amended) on the window of two by four pixels. *)
Lemma render_coordinates_witness :
  (0 < 2)%Z ∧ (0 < 4)%Z
  ∧ ∃ s',
      render (scene := show_uv) Rpower tall_shader 0 = Some s'
      ∧ ∀ x y, (0 ≤ x < 2)%Z → (0 ≤ y < 4)%Z →
          data (pixels s') !! (x, y)
          = Some (gamma_correct Rpower (-1) (1 / -1)
                    (main_image (Shader := show_uv)
                       ((IZR x - 0.5 * IZR 2) / IZR 4,
                        (IZR y - 0.5 * IZR 4) / IZR 4) 0))
          ∧ - 0.5 <= (IZR y - 0.5 * IZR 4) / IZR 4 < 0.5.
Proof.
  apply (render_coordinates (scene := show_uv) Rpower "tall" 2 4 (-1) 0
           tall_shader).
  - lra.
  - reflexivity.
Defined.

(** ** Construction *)

(** C9, as stated, fails for a gamma of zero: the constructor returns a
    shader whose gamma is zero. *)
Lemma gamma_zero_accepted :
  (∃ s, BaseShader_init "tall" (Some (2, 4)%Z) 0 = Some s ∧ gamma s = 0)
  ∧ ¬ invalid_configuration_rejected.
Proof.
  assert (∃ s, BaseShader_init "tall" (Some (2, 4)%Z) 0 = Some s
               ∧ gamma s = 0) as Hs.
  { eexists. split; reflexivity. }
  split; [done|]. intros Hclaim. destruct Hs as (s & Hs & _).
  specialize (Hclaim "tall"%string 2%Z 4%Z 0 ltac:(by right; right)).
  by rewrite Hs in Hclaim.
Qed.

Lemma BaseShader_init_positive (title : string) (w h : Z) (gamma : R) :
  (0 < w < 2 ^ 31)%Z → (0 < h < 2 ^ 31)%Z →
  ∃ s, BaseShader_init title (Some (w, h)) gamma = Some s
       ∧ gui.gamma s = gamma ∧ res s = (w, h) ∧ placed (pixels s) (w, h).
Proof.
  intros Hw Hh. unfold BaseShader_init.
  destruct (Vector_field_placed (w, h) Hw Hh) as (f & -> & Hf).
  rewrite bind_Some. by eexists.
Qed.

(** C9 (amended): a width or height that is not positive is refused when
    the shader is constructed, by the allocation of the pixel field.  The
    constructor does not look at gamma: whether it returns a shader depends
    on the resolution alone, the gamma it is given is stored as it is, and
    with the default resolution every gamma is accepted. *)
Theorem configuration_check (title : string) (gamma : R) :
  (∀ w h, (w ≤ 0)%Z ∨ (h ≤ 0)%Z →
     BaseShader_init title (Some (w, h)) gamma = None
     ∧ TwoPassShader_init title (Some (w, h)) gamma = None)
  ∧ (∀ res gamma',
       is_Some (BaseShader_init title res gamma)
       ↔ is_Some (BaseShader_init title res gamma'))
  ∧ (∀ res s, BaseShader_init title res gamma = Some s → gui.gamma s = gamma)
  ∧ (∃ s, BaseShader_init title None gamma = Some s ∧ gui.gamma s = gamma).
Proof.
  split; [|split; [|split]].
  - intros w h Hs.
    assert (BaseShader_init title (Some (w, h)) gamma = None) as Hb.
    { unfold BaseShader_init. by rewrite Vector_field_rejects. }
    split; [done|]. unfold TwoPassShader_init. by rewrite Hb.
  - intros res gamma'. split; apply BaseShader_init_gamma.
  - intros res s Hs. by apply BaseShader_init_Some in Hs as (_ & _ & _ & _ & ? & _).
  - unfold BaseShader_init.
    destruct (Vector_field_placed (1000, 563)%Z) as (f & -> & _);
      [simpl; lia..|].
    rewrite bind_Some. by eexists.
Qed.

(** With a resolution given, the buffer of a two-pass shader has the shape
    of its pixel field. *)
Lemma TwoPassShader_init_given (title : string) (w h : Z) (gamma : R) :
  (0 < w < 2 ^ 31)%Z → (0 < h < 2 ^ 31)%Z →
  ∃ s, TwoPassShader_init title (Some (w, h)) gamma = Some s
       ∧ placed (pixels s) (w, h) ∧ placed (buffer s) (w, h).
Proof.
  intros Hw Hh. unfold TwoPassShader_init.
  destruct (BaseShader_init_positive title w h gamma Hw Hh)
    as (b & -> & _ & _ & Hp).
  destruct (Vector_field_placed (w, h) Hw Hh) as (f & -> & Hf).
  rewrite !bind_Some. by eexists.
Qed.

(** C10: with [res=None] the pixel field gets the default shape
    [(1000, 563)], but the buffer is declared with [shape=res], that is
    [shape=None]: it has no shape and no cells, and the first pass cannot
    loop over it. *)
Theorem two_pass_default_buffer (title : string) (gamma : R) :
  ∃ s, TwoPassShader_init title None gamma = Some s
       ∧ shape (pixels s) = Some (1000, 563)%Z
       ∧ shape (buffer s) = None
       ∧ data (buffer s) = ∅
       ∧ ∀ pow scene t, render_pass1 (scene := scene) pow s t = None.
Proof.
  unfold TwoPassShader_init, BaseShader_init.
  destruct (Vector_field_placed (1000, 563)%Z) as (f & -> & Hf & _);
    [simpl; lia..|].
  rewrite !bind_Some. simpl. eexists. split; [done|]. simpl.
  split; [done|]. split; [done|]. split; [done|].
  intros pow scene t. unfold render_pass1. simpl.
  by destruct (exponent gamma).
Qed.

(** ** The second pass *)

(** The snapped coordinate of a cell of the field is a cell of the field. *)
Lemma snap_in_range (sh c : Z * Z) : c ∈ indices sh → snap c ∈ indices sh.
Proof.
  rewrite !elem_of_indices. unfold snap; simpl. intros [[Hx0 Hx] [Hy0 Hy]].
  pose proof (Z.mul_div_le c.1 16 ltac:(lia)).
  pose proof (Z.mul_div_le c.2 16 ltac:(lia)).
  pose proof (Z.div_pos c.1 16 Hx0 ltac:(lia)).
  pose proof (Z.div_pos c.2 16 Hy0 ltac:(lia)).
  lia.
Qed.

Lemma resolvable_cells (s : TwoPassShader) (sh : Z * Z) :
  resolvable s sh →
  ∀ c, c ∈ indices sh → is_Some (data (buffer s) !! snap c).
Proof.
  intros [_ Hcells] [x y] Hc. apply elem_of_indices in Hc as [Hx Hy].
  by apply Hcells.
Qed.

(** A pixel field and a buffer of one shape, as [TwoPassShader.__init__]
    makes them when a resolution is given. *)
Lemma placed_resolvable (s : TwoPassShader) (sh : Z * Z) :
  placed (pixels s) sh → placed (buffer s) sh → resolvable s sh.
Proof.
  intros [Hshape _] [_ Hcells]. split; [done|].
  intros x y Hx Hy. apply Hcells, snap_in_range, elem_of_indices. done.
Qed.

(** The result of [render_pass2], cell by cell. *)
Lemma render_pass2_lookup (s : TwoPassShader) (sh : Z * Z) (t : R) :
  resolvable s sh →
  ∃ d',
    render_pass2 s t = Some (MkTwoPassShader (set_pixels s d') (buffer s))
    ∧ (∀ c, c ∈ indices sh → d' !! c = data (buffer s) !! snap c)
    ∧ (∀ c, c ∉ indices sh → d' !! c = data (pixels s) !! c).
Proof.
  intros Hres. pose proof (resolvable_cells s sh Hres) as Hcells.
  destruct Hres as [Hshape _]. unfold render_pass2, grouped.
  rewrite Hshape. simpl.
  destruct (for_each_write (indices sh) (λ c, data (buffer s) !! snap c)
              (λ c, default ((0, 0, 0) : vec3) (data (buffer s) !! snap c))
              (data (pixels s))) as (d' & -> & Hin & Hout).
  { intros c Hc. by destruct (Hcells c Hc) as [v ->]. }
  exists d'. split; [done|]. split; [|done].
  intros c Hc. rewrite Hin by done. by destruct (Hcells c Hc) as [v ->].
Qed.

(** C7: whenever the reads of the second pass find their cells, as they do
    for a shader constructed with a resolution, [render_pass2] has a result;
    every pixel [(x, y)] of the pixel field gets the buffer's value at the
    coordinate snapped down to a multiple of 16 on both axes, a function of
    the coordinate alone; the buffer is left as it is; and running the pass
    again on the result returns that same result. *)
Theorem render_pass2_idempotent (s : TwoPassShader) (sh : Z * Z) (t t' : R) :
  resolvable s sh →
  ∃ s',
    render_pass2 s t = Some s'
    ∧ buffer s' = buffer s
    ∧ (∀ x y, (0 ≤ x < sh.1)%Z → (0 ≤ y < sh.2)%Z →
         data (pixels s') !! (x, y)
         = data (buffer s) !! ((x `div` 16 * 16)%Z, (y `div` 16 * 16)%Z))
    ∧ render_pass2 s' t' = Some s'.
Proof.
  intros Hr.
  destruct (render_pass2_lookup s sh t Hr) as (d' & Hrun & Hin & Hout).
  set (s' := MkTwoPassShader (set_pixels s d') (buffer s)) in *.
  exists s'. split; [done|]. split; [done|]. split.
  { intros x y Hx Hy. apply (Hin (x, y)). by apply elem_of_indices. }
  assert (resolvable s' sh) as Hr' by (destruct Hr; by split).
  destruct (render_pass2_lookup s' sh t' Hr') as (d'' & -> & Hin' & Hout').
  assert (d'' = d') as ->; [|done].
  apply map_eq. intros c. destruct (decide (c ∈ indices sh)) as [Hc|Hc].
  - by rewrite Hin', Hin.
  - by rewrite Hout'.
Qed.

Lemma striped_resolvable : resolvable striped (20, 3)%Z.
Proof.
  split; [done|]. intros x y Hx Hy. simpl in Hx, Hy.
  assert (snap (x, y) ∈ indices (20, 3)%Z) as Hin
    by (by apply snap_in_range, elem_of_indices).
  destruct (data (buffer striped) !! snap (x, y)) eqn:Hl; [by eexists|].
  apply not_elem_of_list_to_map in Hl. exfalso. apply Hl.
  rewrite <- list_fmap_compose. apply list_elem_of_fmap.
  by exists (snap (x, y)).
Qed.

Lemma striped_cell :
  data (buffer striped) !! (16, 0)%Z = Some (IZR 16, IZR 0, 0).
Proof.
  apply elem_of_list_to_map_1'.
  - intros v Hv. apply list_elem_of_fmap in Hv as (k & [= <- ->] & _). done.
  - apply list_elem_of_fmap. exists (16, 0)%Z. split; [done|].
    apply elem_of_indices. simpl. lia.
Qed.

(** C7 on the shader [striped], whose buffer holds a different colour in
    every cell and whose pixels are black before the pass: the pixel
    [(17, 2)] gets the colour [(16, 0, 0)] of the buffer cell [(16, 0)]. *)
Lemma render_pass2_idempotent_witness :
  ∃ s',
    render_pass2 striped 0 = Some s'
    ∧ buffer s' = buffer striped
    ∧ (∀ x y, (0 ≤ x < 20)%Z → (0 ≤ y < 3)%Z →
         data (pixels s') !! (x, y)
         = data (buffer striped)
             !! ((x `div` 16 * 16)%Z, (y `div` 16 * 16)%Z))
    ∧ render_pass2 s' 1 = Some s'
    ∧ data (pixels striped) !! (17, 2)%Z = Some (0, 0, 0)
    ∧ data (pixels s') !! (17, 2)%Z = Some (IZR 16, IZR 0, 0).
Proof.
  destruct (render_pass2_idempotent striped (20, 3)%Z 0 1 striped_resolvable)
    as (s' & Hrun & Hbuf & Hpix & Hagain).
  exists s'. split; [exact Hrun|]. split; [exact Hbuf|].
  split; [exact Hpix|]. split; [exact Hagain|]. split.
  - apply elem_of_list_to_map_1'.
    + intros v Hv. apply list_elem_of_fmap in Hv as (k & [= _ ->] & _). done.
    + apply list_elem_of_fmap. exists (17, 2)%Z. split; [done|].
      apply elem_of_indices. simpl. lia.
  - etrans; [apply (Hpix 17 2)%Z; simpl; lia|]. exact striped_cell.
Defined.

(** * Further properties of the embedded code *)

(** ** The two easing functions *)

Lemma clamp_range (x : R) : 0 <= clamp x 0 1 <= 1.
Proof.
  unfold clamp. split.
  - apply Rmin_glb; [apply Rmax_r | lra].
  - apply Rmin_r.
Qed.


Lemma clamp_low (x : R) : x <= 0 → clamp x 0 1 = 0.
Proof.
  intros Hx. unfold clamp. rewrite Rmax_right by done.
  apply Rmin_left. lra.
Qed.

Lemma clamp_high (x : R) : 1 <= x → clamp x 0 1 = 1.
Proof.
  intros Hx. unfold clamp. rewrite Rmax_left by lra. by apply Rmin_right.
Qed.


Lemma smooth_range (edge0 edge1 x : R) : 0 <= smooth edge0 edge1 x <= 1.
Proof.
  unfold smooth. cbv zeta.
  pose proof (clamp_range ((x - edge0) / (edge1 - edge0))) as Ht.
  set (t := clamp _ 0 1) in *. clearbody t.
  assert (0 <= t * t * (3 - 2 * t))
    by (repeat apply Rmult_le_pos; lra).
  assert (0 <= (1 - t) * (1 - t) * (1 + 2 * t))
    by (repeat apply Rmult_le_pos; lra).
  split; lra.
Qed.

Lemma ratio_mono (edge0 edge1 x y : R) :
  edge0 < edge1 → x <= y →
  (x - edge0) / (edge1 - edge0) <= (y - edge0) / (edge1 - edge0).
Proof.
  intros He Hxy. unfold Rdiv. apply Rmult_le_compat_r; [|lra].
  apply Rlt_le, Rinv_0_lt_compat. lra.
Qed.

Lemma ratio_low (edge0 edge1 x : R) :
  edge0 < edge1 → x <= edge0 → (x - edge0) / (edge1 - edge0) <= 0.
Proof.
  intros He Hx. replace 0 with ((edge0 - edge0) / (edge1 - edge0)).
  - by apply ratio_mono.
  - unfold Rdiv. ring.
Qed.

Lemma ratio_high (edge0 edge1 x : R) :
  edge0 < edge1 → edge1 <= x → 1 <= (x - edge0) / (edge1 - edge0).
Proof.
  intros He Hx. replace 1 with ((edge1 - edge0) / (edge1 - edge0)).
  - by apply ratio_mono.
  - field. lra.
Qed.




Lemma quintic_ease_mono (a b : R) :
  0 <= a → a <= b → b <= 1 →
  a * a * a * (a * (a * 6 - 15) + 10) <= b * b * b * (b * (b * 6 - 15) + 10).
Proof.
  intros Ha Hab Hb.
  pose (d := b - a). pose (c := 1 - b).
  assert (0 <= d) by (unfold d; lra). assert (0 <= c) by (unfold c; lra).
  assert (0 <= 30 * (a * a * c * c * d + a * a * c * d * d
                     + a * a * d * d * d / 3 + a * c * c * d * d
                     + 2 / 3 * a * c * d * d * d + a * d * d * d * d / 6
                     + c * c * d * d * d / 3 + c * d * d * d * d / 6
                     + d * d * d * d * d / 30)) as Hpos.
  { apply Rmult_le_pos; [lra|].
    repeat apply Rplus_le_le_0_compat; unfold Rdiv;
      repeat apply Rmult_le_pos; lra. }
  unfold d, c in Hpos. lra.
Qed.

Lemma smoother_range (edge0 edge1 x : R) : 0 <= smoother edge0 edge1 x <= 1.
Proof.
  unfold smoother. cbv zeta.
  pose proof (clamp_range ((x - edge0) / (edge1 - edge0))) as Ht.
  set (t := clamp _ 0 1) in *. clearbody t.
  pose proof (quintic_ease_mono 0 t ltac:(lra) ltac:(lra) ltac:(lra)).
  pose proof (quintic_ease_mono t 1 ltac:(lra) ltac:(lra) ltac:(lra)).
  split; lra.
Qed.


(** ** The bounding box and the glow *)

Lemma trunc_near (r : R) : IZR (trunc r) - 1 < r < IZR (trunc r) + 1.
Proof.
  unfold trunc. case_decide as Hr.
  - pose proof (base_Int_part (- r)) as [Hlo Hhi]. rewrite opp_IZR. lra.
  - pose proof (base_Int_part r) as [Hlo Hhi]. lra.
Qed.

Lemma abs_fst_le_length (v : vec2) : Rabs v.1 <= length v.
Proof.
  pose proof (length_nonneg v). pose proof (length_sqr v).
  apply Rabs_le. split; nra.
Qed.

Lemma abs_snd_le_length (v : vec2) : Rabs v.2 <= length v.
Proof.
  pose proof (length_nonneg v). pose proof (length_sqr v).
  apply Rabs_le. split; nra.
Qed.

(** A pixel whose point is closer than [0.018] to [x] on one axis is at
    most 24 pixels from [int(x * 1280)]. *)
Lemma pixel_offset_small (k : Z) (x : R) :
  Rabs (IZR k / IZR res_x - x) < 0.018 →
  (Z.abs (k - trunc (x * IZR res_x)) ≤ MAX_FIREFLY_PIXEL_RADIUS)%Z.
Proof.
  intros Hd. pose proof (trunc_near (x * IZR res_x)) as Ht.
  set (T := trunc (x * IZR res_x)) in *. clearbody T.
  apply Rabs_def2 in Hd as [Hhi Hlo].
  unfold res_x in *.
  assert (IZR k - x * 1280 < 23.04) by lra.
  assert (- 23.04 < IZR k - x * 1280) by lra.
  assert (IZR (k - T) < IZR 25) as H1 by (rewrite minus_IZR; lra).
  assert (IZR (-25) < IZR (k - T)) as H2 by (rewrite minus_IZR; lra).
  apply lt_IZR in H1, H2.
  change MAX_FIREFLY_PIXEL_RADIUS with 25%Z. lia.
Qed.

Lemma glow_far (t : R) (ff_pos : vec2) (ff_color : vec3) (offset : R)
    (c : Z * Z) :
  1.5 * current_radius t offset <= length (sub2 (pixel_point c) ff_pos) →
  glow t ff_pos ff_color offset c = (0, 0, 0).
Proof.
  intros Hd. pose proof (current_radius_range t offset) as Hr.
  unfold glow, sdf_circle. cbv zeta. unfold smooth. cbv zeta.
  rewrite clamp_high.
  - unfold scale3; simpl. repeat f_equal; lra.
  - apply ratio_high; lra.
Qed.

(** A pixel closer to the firefly than one and a half radii is in the box
    that the offset loops scan. *)
Lemma near_in_box (t : R) (ff_pos : vec2) (offset : R) (c : Z * Z) :
  length (sub2 (pixel_point c) ff_pos) < 1.5 * current_radius t offset →
  in_box ff_pos c.
Proof.
  intros Hd. pose proof (current_radius_range t offset) as Hr.
  pose proof (abs_fst_le_length (sub2 (pixel_point c) ff_pos)) as H1.
  pose proof (abs_snd_le_length (sub2 (pixel_point c) ff_pos)) as H2.
  simpl in H1, H2. unfold in_box. change res_y with res_x in *.
  split; apply pixel_offset_small; lra.
Qed.

Lemma add3_zero (v : vec3) : add3 v (0, 0, 0) = v.
Proof.
  destruct v as [[r g] b]. unfold add3; simpl. f_equal; [f_equal|]; lra.
Qed.

Lemma alter_add3_zero (c : Z * Z) (pixels : gmap (Z * Z) vec3) :
  alter (λ v, add3 v (0, 0, 0)) c pixels = pixels.
Proof.
  apply map_eq. intros k. destruct (decide (k = c)) as [->|Hk].
  - rewrite lookup_alter_eq. destruct (pixels !! c); [|done].
    simpl. by rewrite add3_zero.
  - by rewrite lookup_alter_ne.
Qed.

(** The box of [MAX_FIREFLY_PIXEL_RADIUS] pixels that the two offset loops
    scan cuts nothing off.  Wherever the firefly is and whatever the time,
    the body of the loops, run at an offset outside the box, leaves the
    buffer as it is: a pixel that far away is off the screen, or fails the
    guard, or is at least one and a half radii from the firefly, where the
    falloff is zero. *)
Theorem box_covers_glow (t : R) (ff_pos : vec2) (ff_color : vec3)
    (offset : R) (x_offset y_offset : Z) (pixels : gmap (Z * Z) vec3) :
  ¬ (x_offset ∈ offsets ∧ y_offset ∈ offsets) →
  splat_pixel t ff_pos ff_color offset x_offset y_offset pixels = Some pixels.
Proof.
  intros Hout. rewrite splat_pixel_eq. cbv zeta.
  set (c := ((trunc (ff_pos.1 * IZR res_x) + x_offset)%Z,
             (trunc (ff_pos.2 * IZR res_y) + y_offset)%Z)).
  unfold splat_value. case_decide as Hc; [|done].
  assert (¬ in_box ff_pos c) as Hbox.
  { intros [Hx Hy]. apply Hout. rewrite !elem_of_offsets.
    unfold c in Hx, Hy. simpl in Hx, Hy. split.
    - by replace x_offset
        with (trunc (ff_pos.1 * IZR res_x) + x_offset
              - trunc (ff_pos.1 * IZR res_x))%Z by lia.
    - by replace y_offset
        with (trunc (ff_pos.2 * IZR res_y) + y_offset
              - trunc (ff_pos.2 * IZR res_y))%Z by lia. }
  rewrite glow_far; [by rewrite alter_add3_zero|].
  apply Rnot_lt_le. intros Hd. by apply Hbox, (near_in_box t _ offset).
Qed.

(** The body of the loops at the offset [(26, 0)] from a firefly at the
    centre, on a buffer with a white pixel there. *)
Lemma box_covers_glow_witness :
  splat_pixel 0 (0.5, 0.5) (1, 1, 1) 0 26 0 {[ (666, 640)%Z := (1, 1, 1) ]}
  = Some {[ (666, 640)%Z := (1, 1, 1) ]}.
Proof.
  apply (box_covers_glow 0 (0.5, 0.5) (1, 1, 1) 0 26 0).
  rewrite !elem_of_offsets. vm_compute. intros [H _]. by apply H.
Defined.

Lemma mix_between (a b alpha : R) :
  0 <= a <= 1 → 0 <= b <= 1 → 0 <= alpha <= 1 →
  0 <= mix_colors a b alpha <= 1.
Proof. intros Ha Hb Hal. unfold mix_colors. split; nra. Qed.

(** The colour [glow] of a firefly whose channels lie in [[0, 1]] has its
    channels in [[0, 0.5]]. *)
Lemma glow_range (t : R) (ff_pos : vec2) (ff_color : vec3) (offset : R)
    (c : Z * Z) :
  0 <= ff_color.1.1 <= 1 → 0 <= ff_color.1.2 <= 1 → 0 <= ff_color.2 <= 1 →
  let g := glow t ff_pos ff_color offset c in
  0 <= g.1.1 <= 0.5 ∧ 0 <= g.1.2 <= 0.5 ∧ 0 <= g.2 <= 0.5.
Proof.
  intros Hr Hg Hb. cbv zeta.
  pose proof (pulse_factor_range t offset) as Hp.
  assert (0 <= pulse_factor t offset * 0.7 <= 1) as Ha by lra.
  pose proof (mix_between ff_color.1.1 1 _ Hr ltac:(lra) Ha) as M1.
  pose proof (mix_between ff_color.1.2 1 _ Hg ltac:(lra) Ha) as M2.
  pose proof (mix_between ff_color.2 1 _ Hb ltac:(lra) Ha) as M3.
  unfold glow. cbv zeta.
  pose proof (smooth_range 0 (current_radius t offset * 0.5)
                (sdf_circle (pixel_point c) ff_pos (current_radius t offset)))
    as Hs.
  set (s := smooth _ _ _) in *.
  unfold mix_colors in M1, M2, M3.
  repeat split; unfold scale3, mix_colors3, add3, scale3; simpl; nra.
Qed.

(** Inside the disc of the firefly the falloff is at full strength. *)
Lemma glow_inside (t : R) (ff_pos : vec2) (ff_color : vec3) (offset : R)
    (c : Z * Z) :
  length (sub2 (pixel_point c) ff_pos) <= current_radius t offset →
  glow t ff_pos ff_color offset c
  = scale3 (mix_colors3 ff_color (1, 1, 1) (pulse_factor t offset * 0.7)) 0.5.
Proof.
  intros Hin. pose proof (current_radius_range t offset) as Hrad.
  unfold glow. cbv zeta. unfold smooth, sdf_circle. rewrite clamp_low.
  - unfold scale3; simpl. f_equal; [f_equal|]; lra.
  - apply ratio_low; lra.
Qed.

(** One run of the body of the offset loops adds, per channel, between 0
    and one half to the pixel it is run for, and touches no other pixel:
    for a firefly whose colour channels lie in [[0, 1]], every channel of
    the pixel grows by at most [0.5] and does not shrink.  For a pixel on
    the screen inside the firefly's disc the falloff is at full strength,
    and the colour added is half the firefly's colour mixed toward
    white. *)
Theorem glow_bounds (t : R) (ff_pos : vec2) (ff_color : vec3) (offset : R)
    (x_offset y_offset : Z) (pixels : gmap (Z * Z) vec3) (v : vec3) :
  0 <= ff_color.1.1 <= 1 → 0 <= ff_color.1.2 <= 1 → 0 <= ff_color.2 <= 1 →
  let c := ((trunc (ff_pos.1 * IZR res_x) + x_offset)%Z,
            (trunc (ff_pos.2 * IZR res_y) + y_offset)%Z) in
  pixels !! c = Some v →
  ∃ pixels' v',
    splat_pixel t ff_pos ff_color offset x_offset y_offset pixels
    = Some pixels'
    ∧ pixels' !! c = Some v'
    ∧ v.1.1 <= v'.1.1 <= v.1.1 + 0.5
    ∧ v.1.2 <= v'.1.2 <= v.1.2 + 0.5
    ∧ v.2 <= v'.2 <= v.2 + 0.5
    ∧ (on_screen c →
       length (sub2 (pixel_point c) ff_pos) <= current_radius t offset →
       v' = add3 v
              (scale3
                 (mix_colors3 ff_color (1, 1, 1) (pulse_factor t offset * 0.7))
                 0.5))
    ∧ ∀ c', c' ≠ c → pixels' !! c' = pixels !! c'.
Proof.
  intros Hr Hg Hb c Hv. rewrite splat_pixel_eq. cbv zeta. fold c.
  pose proof (current_radius_range t offset) as Hrad.
  pose proof (glow_range t ff_pos ff_color offset c Hr Hg Hb) as Hrange.
  cbv zeta in Hrange.
  unfold splat_value. case_decide as Hc.
  - exists (alter (λ w, add3 w (glow t ff_pos ff_color offset c)) c pixels),
      (add3 v (glow t ff_pos ff_color offset c)).
    split; [done|]. split.
    { rewrite lookup_alter_eq.
      exact (f_equal
               (fmap (λ w, add3 w (glow t ff_pos ff_color offset c))) Hv). }
    split; [|split; [|split; [|split]]].
    + unfold add3; cbn [fst snd]. lra.
    + unfold add3; cbn [fst snd]. lra.
    + unfold add3; cbn [fst snd]. lra.
    + intros _ Hin. by rewrite glow_inside.
    + intros c' Hne. by rewrite lookup_alter_ne.
  - exists pixels, v. split; [done|]. split; [done|].
    split; [lra|]. split; [lra|]. split; [lra|]. split; [|done].
    intros Hscr Hin. exfalso. apply Hc. split; [done|].
    unfold sdf_circle. lra.
Qed.

(** [glow_bounds] for the white firefly at the centre and the pixel
    [(653, 640)], which is black before. *)
Lemma glow_bounds_witness :
  let c := ((trunc (0.5 * IZR res_x)%R + 13)%Z,
            (trunc (0.5 * IZR res_y)%R + 0)%Z) in
  ∃ pixels' v',
    splat_pixel 0 (0.5, 0.5) (1, 1, 1) 0 13 0 {[ (653, 640)%Z := (0, 0, 0) ]}
    = Some pixels'
    ∧ pixels' !! c = Some v'
    ∧ (0, 0, 0).1.1 <= v'.1.1 <= (0, 0, 0).1.1 + 0.5
    ∧ (0, 0, 0).1.2 <= v'.1.2 <= (0, 0, 0).1.2 + 0.5
    ∧ (0, 0, 0).2 <= v'.2 <= (0, 0, 0).2 + 0.5
    ∧ (on_screen c →
       length (sub2 (pixel_point c) (0.5, 0.5)) <= current_radius 0 0 →
       v' = add3 (0, 0, 0)
              (scale3
                 (mix_colors3 (1, 1, 1) (1, 1, 1) (pulse_factor 0 0 * 0.7))
                 0.5))
    ∧ ∀ c', c' ≠ c →
        pixels' !! c'
        = ({[ (653, 640)%Z := (0, 0, 0) ]} : gmap (Z * Z) vec3) !! c'.
Proof.
  apply (glow_bounds 0 (0.5, 0.5) (1, 1, 1) 0 13 0
           {[ (653, 640)%Z := (0, 0, 0) ]} (0, 0, 0)); simpl; try lra.
  change res_y with res_x. rewrite trunc_640.
  apply (lookup_singleton_eq (M := gmap (Z * Z))).
Defined.

(** ** The buffer over a frame and over many *)

Lemma render_lookup_all (t : R) (st : fireflies)
    (pixels : gmap (Z * Z) vec3) :
  well_formed st →
  ∃ pixels',
    taskB.render t st pixels = Some pixels'
    ∧ ∀ c, pixels' !! c
           = (λ v, splats t st (seq 0 NUM_FIREFLIES) c
                     (scale3 v TRAIL_FADE_SPEED)) <$> pixels !! c.
Proof.
  intros Hwf. unfold taskB.render.
  destruct (splat_loop_lookup t st (seq 0 NUM_FIREFLIES) (fade pixels) Hwf)
    as (pixels' & Hrun & Hlook).
  { apply Forall_forall. intros i Hi. apply elem_of_seq in Hi. lia. }
  exists pixels'. split; [done|].
  intros c. rewrite Hlook. unfold fade. rewrite lookup_fmap.
  by destruct (pixels !! c).
Qed.



Lemma blend_comm (a b : option vec3) (v : vec3) :
  blend a (blend b v) = blend b (blend a v).
Proof.
  destruct a as [a|], b as [b|]; simpl; try done.
  unfold add3; simpl. f_equal; [f_equal|]; lra.
Qed.

Lemma splats_perm (t : R) (st : fireflies) (l l' : list nat) (c : Z * Z)
    (v : vec3) :
  l ≡ₚ l' → splats t st l c v = splats t st l' c v.
Proof.
  unfold splats. intros Hp. revert v.
  induction Hp as [|i l l' Hp IH|i j l|l1 l2 l3 H1 IH1 H2 IH2]; intros v.
  - done.
  - simpl. apply IH.
  - simpl. by rewrite blend_comm.
  - by rewrite IH1.
Qed.

(** The order in which the fireflies are splatted does not matter: the loop
    over any rearrangement of the same fireflies leaves the same buffer. *)
Theorem splat_order_irrelevant (t : R) (st : fireflies) (l l' : list nat)
    (pixels : gmap (Z * Z) vec3) :
  well_formed st → Forall (λ i, (i < NUM_FIREFLIES)%nat) l → l ≡ₚ l' →
  is_Some (for_each l (splat_firefly t st) pixels)
  ∧ for_each l (splat_firefly t st) pixels
    = for_each l' (splat_firefly t st) pixels.
Proof.
  intros Hwf Hl Hp.
  assert (Forall (λ i, (i < NUM_FIREFLIES)%nat) l') as Hl'
    by (by rewrite <- Hp).
  destruct (splat_loop_lookup t st l pixels Hwf Hl) as (m & Hm & Hlook).
  destruct (splat_loop_lookup t st l' pixels Hwf Hl') as (m' & Hm' & Hlook').
  rewrite Hm, Hm'. split; [by eexists|]. f_equal. apply map_eq. intros c.
  rewrite Hlook, Hlook'.
  destruct (pixels !! c) as [v|]; [|done]. simpl. f_equal.
  by apply splats_perm.
Qed.

Lemma splat_order_irrelevant_witness :
  is_Some (for_each [0; 1; 2]%nat (splat_firefly 0 stalled)
             {[ (640, 640)%Z := (0, 0, 0) ]})
  ∧ for_each [0; 1; 2]%nat (splat_firefly 0 stalled)
      {[ (640, 640)%Z := (0, 0, 0) ]}
    = for_each [2; 0; 1]%nat (splat_firefly 0 stalled)
        {[ (640, 640)%Z := (0, 0, 0) ]}.
Proof.
  apply (splat_order_irrelevant 0 stalled).
  - apply stalled_well_formed.
  - repeat constructor.
  - symmetry. apply (Permutation_cons_append [0; 1]%nat 2%nat).
Defined.

Lemma scale3_scale3 (v : vec3) (a b : R) :
  scale3 (scale3 v a) b = scale3 v (a * b).
Proof. unfold scale3; simpl. f_equal; [f_equal|]; lra. Qed.

Lemma scale3_one (v : vec3) : scale3 v 1 = v.
Proof. destruct v as [[r g] b]. unfold scale3; simpl. f_equal; [f_equal|]; lra. Qed.

(** The trail fades exponentially: over any number of frames in which no
    firefly adds anything at pixel [c], whatever the fireflies do elsewhere,
    the value at [c] is multiplied by [TRAIL_FADE_SPEED] once per frame. *)
Theorem trail_decay (frames : list (R * fireflies))
    (pixels : gmap (Z * Z) vec3) (c : Z * Z) :
  Forall (λ f, well_formed f.2) frames →
  Forall (λ f, ∀ i, (i < NUM_FIREFLIES)%nat → contribution f.1 f.2 i c = None)
    frames →
  ∃ pixels',
    render_frames frames pixels = Some pixels'
    ∧ pixels' !! c
      = (λ v, scale3 v (TRAIL_FADE_SPEED ^ Datatypes.length frames))
        <$> pixels !! c.
Proof.
  unfold render_frames. intros Hwf. revert pixels.
  induction Hwf as [|f frames Hf Hwf IH]; intros pixels Hnone.
  - exists pixels. split; [done|]. simpl.
    destruct (pixels !! c) as [v|]; [|done]. simpl. by rewrite scale3_one.
  - apply Forall_cons in Hnone as [Hn Hnone].
    destruct (render_lookup_all f.1 f.2 pixels Hf) as (m & Hm & Hlook).
    destruct (IH m Hnone) as (pixels' & Hrun & Hc).
    exists pixels'. split; [by rewrite for_each_cons, Hm|].
    rewrite Hc, Hlook. destruct (pixels !! c) as [v|]; [|done].
    change (Some (scale3 (splats f.1 f.2 (seq 0 NUM_FIREFLIES) c
                            (scale3 v TRAIL_FADE_SPEED))
                    (TRAIL_FADE_SPEED ^ Datatypes.length frames))
            = Some (scale3 v (TRAIL_FADE_SPEED
                              ^ (S (Datatypes.length frames))))).
    rewrite splats_none.
    + rewrite scale3_scale3. f_equal.
    + intros i Hi. apply Hn. apply elem_of_seq in Hi. lia.
Qed.

Lemma clustered_well_formed : well_formed clustered.
Proof. repeat split. Defined.

(** No firefly of [clustered] reaches the corner pixel. *)
Lemma clustered_far (t : R) (i : nat) :
  (i < NUM_FIREFLIES)%nat → contribution t clustered i (0, 0)%Z = None.
Proof.
  intros Hi. unfold contribution.
  assert (firefly_pos clustered !! i = Some ((0.5, 0.5) : vec2)) as ->
    by (by apply lookup_replicate_2).
  assert (firefly_color clustered !! i = Some ((1, 1, 1) : vec3)) as ->
    by (by apply lookup_replicate_2).
  assert (firefly_offset clustered !! i = Some 0) as ->
    by (by apply lookup_replicate_2).
  rewrite !bind_Some. rewrite decide_False; [done|].
  unfold in_box. simpl. change res_y with res_x. rewrite trunc_640.
  intros [H _]. vm_compute in H. by apply H.
Qed.

(** [trail_decay] over two frames of [clustered] and a white corner pixel. *)
Lemma trail_decay_witness :
  ∃ pixels',
    render_frames [(0, clustered); (1, clustered)]
      {[ (0, 0)%Z := (1, 1, 1) ]} = Some pixels'
    ∧ pixels' !! (0, 0)%Z
      = (λ v, scale3 v (TRAIL_FADE_SPEED ^ 2))
        <$> ({[ (0, 0)%Z := (1, 1, 1) ]} : gmap (Z * Z) vec3) !! (0, 0)%Z.
Proof.
  apply (trail_decay [(0, clustered); (1, clustered)]).
  - repeat constructor; apply clustered_well_formed.
  - repeat constructor; intros i Hi; by apply clustered_far.
Defined.

(** ** More on the pairwise force *)

Lemma add2_zero (v : vec2) : add2 v (0, 0) = v.
Proof. destruct v. unfold add2; simpl. f_equal; lra. Qed.

Lemma length_sub2_swap (a b : vec2) : length (sub2 a b) = length (sub2 b a).
Proof. unfold length, sub2; simpl. f_equal. ring. Qed.

Lemma unit_sub2_swap (a b : vec2) :
  unit (sub2 a b) = scale2 (unit (sub2 b a)) (-1).
Proof.
  unfold unit. rewrite (length_sub2_swap a b).
  unfold scale2, sub2; simpl. unfold Rdiv. f_equal; ring.
Qed.

(** What a pair at distance [d] adds, as a vector along the unit vector
    from [cur] to [other]: the signed factor. *)
Lemma pair_force_factor (cur other acc : vec2) :
  ∃ k, pair_force cur other acc
       = Some (add2 acc (scale2 (unit (sub2 other cur)) k))
       ∧ Rabs k < 100
       ∧ (FIREFLY_RADIUS * 2 <= length (sub2 other cur) →
          0 <= k <= ATTRACTION_STRENGTH)
       ∧ (length (sub2 other cur) = 0 → k = 0)
       ∧ ∀ acc', pair_force other cur acc'
                 = Some (add2 acc' (scale2 (unit (sub2 cur other)) k)).
Proof.
  set (d := length (sub2 other cur)).
  assert (length (sub2 cur other) = d) as Hswap by apply length_sub2_swap.
  assert (∀ v w : vec2, add2 v (scale2 w 0) = v) as Hz.
  { intros [v1 v2] w. unfold add2, scale2; simpl. f_equal; lra. }
  destruct (Rle_or_lt ATTRACTION_RADIUS d) as [Hr|Hr];
    [|destruct (Rle_or_lt d 1e-5) as [He|He]].
  - exists 0. rewrite Hz, pair_force_skip by (by left).
    split; [done|]. split; [rewrite Rabs_R0; lra|].
    split; [unfold ATTRACTION_STRENGTH; lra|]. split; [done|].
    intros acc'. rewrite Hz, pair_force_skip; [done|]. left. by rewrite Hswap.
  - exists 0. rewrite Hz, pair_force_skip by (by right).
    split; [done|]. split; [rewrite Rabs_R0; lra|].
    split; [unfold ATTRACTION_STRENGTH; lra|]. split; [done|].
    intros acc'. rewrite Hz, pair_force_skip; [done|]. right. by rewrite Hswap.
  - destruct (Rle_or_lt (FIREFLY_RADIUS * 2) d) as [Hf|Hf].
    + exists (quintic_ease ATTRACTION_RADIUS d * ATTRACTION_STRENGTH).
      pose proof (quintic_ease_pos d ltac:(lra)) as Hq.
      assert (quintic_ease ATTRACTION_RADIUS d <= 1) as Hq1.
      { pose proof (smoother_range 0 ATTRACTION_RADIUS d) as Hs.
        unfold smoother in Hs. rewrite clamp_id in Hs.
        - unfold quintic_ease. cbv zeta in *.
          replace ((d - 0) / (ATTRACTION_RADIUS - 0))
            with (d / ATTRACTION_RADIUS) in Hs
            by (unfold ATTRACTION_RADIUS; lra).
          lra.
        - unfold ATTRACTION_RADIUS in *. lra. }
      split; [by apply pair_force_attract|].
      unfold ATTRACTION_STRENGTH in *.
      split; [rewrite Rabs_pos_eq; nra|]. split; [intros _; nra|].
      split; [intros H0; unfold d in *; lra|].
      intros acc'. rewrite pair_force_attract by (rewrite Hswap; lra).
      by rewrite Hswap.
    + exists (- (2 * ATTRACTION_STRENGTH / d)).
      assert (0 < 2 * ATTRACTION_STRENGTH / d < 100) as Hk.
      { unfold ATTRACTION_STRENGTH. split.
        - apply Rdiv_lt_0_compat; lra.
        - apply Rmult_lt_reg_r with (r := d); [lra|].
          unfold Rdiv. rewrite Rmult_assoc, Rinv_l by lra. lra. }
      split; [by apply pair_force_repel|].
      split; [rewrite Rabs_Ropp, Rabs_pos_eq; lra|].
      split; [intros Hd; lra|].
      split; [intros H0; unfold d in *; lra|].
      intros acc'. rewrite pair_force_repel by (rewrite Hswap; lra).
      by rewrite Hswap.
Qed.

(** The force of a pair is equal and opposite on its two fireflies: what
    [j] adds to the force of [i] is the negative of what [i] adds to the
    force of [j]. *)
Theorem pair_force_opposite (a b acc acc' : vec2) :
  ∃ f, pair_force a b acc = Some (add2 acc f)
       ∧ pair_force b a acc' = Some (sub2 acc' f).
Proof.
  destruct (pair_force_factor a b acc) as (k & Hab & _ & _ & _ & Hba).
  exists (scale2 (unit (sub2 b a)) k). split; [done|].
  rewrite Hba, unit_sub2_swap. f_equal.
  unfold add2, sub2, scale2; simpl. f_equal; ring.
Qed.


(** ** More on the step of the fireflies *)


Lemma for_each_seq_run {St : Type} (P : nat → St → Prop)
    (body : nat → St → option St) (n a : nat) (s : St) :
  (∀ k u, (a ≤ k < a + n)%nat → P k u →
     ∃ u', body k u = Some u' ∧ P (k + 1)%nat u') →
  P a s → ∃ s', for_each (seq a n) body s = Some s' ∧ P (a + n)%nat s'.
Proof.
  revert a s. induction n as [|n IH]; intros a s Hstep Ha; simpl.
  - exists s. by rewrite Nat.add_0_r.
  - destruct (Hstep a s) as (u & Hu & HP); [lia|done|].
    destruct (IH (S a) u) as (s' & Hrun & HP').
    + intros k v Hk. apply Hstep. lia.
    + by replace (S a) with (a + 1)%nat by lia.
    + exists s'. rewrite Hu. simpl.
      by replace (a + S n)%nat with (S a + n)%nat by lia.
Qed.






(** *** A step that succeeds: all fireflies in one place *)








(** ** [init_fireflies] *)

Lemma init_firefly_is_Some (random : nat → init_draws) (i : nat)
    (st : fireflies) :
  is_Some (init_firefly random i st) ↔ dir_draw (random i) ≠ (0.5, 0.5).
Proof.
  unfold init_firefly. cbv zeta.
  pose proof (normalize_is_Some (sub2s (scale2 (dir_draw (random i)) 2.0) 1.0))
    as Hn.
  assert (sub2s (scale2 (dir_draw (random i)) 2.0) 1.0 = (0, 0)
          ↔ dir_draw (random i) = (0.5, 0.5)) as Hz.
  { destruct (dir_draw (random i)) as [a b].
    unfold sub2s, scale2; simpl. split; intros [= Ha Hb]; f_equal; lra. }
  rewrite <- Hz, <- Hn.
  destruct (normalize _) as [n|]; simpl.
  - split; intros _; by eexists.
  - split; intros [? ?]; done.
Qed.

(** Every iteration of a loop that has a result had one. *)
Lemma for_each_seq_bodies {St : Type} (body : nat → St → option St)
    (n a : nat) (s s' : St) :
  for_each (seq a n) body s = Some s' →
  ∀ k, (a ≤ k < a + n)%nat → ∃ u, is_Some (body k u).
Proof.
  revert a s. induction n as [|n IH]; intros a s Hrun k Hk; [lia|].
  simpl in Hrun. destruct (body a s) as [u|] eqn:Hb; simpl in Hrun; [|done].
  destruct (decide (k = a)) as [->|Hne].
  - exists s. rewrite Hb. by eexists.
  - apply (IH (S a) u Hrun). lia.
Qed.

Lemma init_firefly_result (random : nat → init_draws) (i : nat)
    (st st' : fireflies) :
  well_formed st → (i < NUM_FIREFLIES)%nat →
  init_firefly random i st = Some st' →
  well_formed st'
  ∧ has_speed st' i
  ∧ firefly_pos st' !! i = Some (pos_draw (random i) : vec2)
  ∧ firefly_color st' !! i = Some (color_draw (random i) : vec3)
  ∧ firefly_offset st' !! i = Some (offset_draw (random i) * PI * 2.0)
  ∧ ∀ j, j ≠ i →
      firefly_pos st' !! j = firefly_pos st !! j
      ∧ firefly_vel st' !! j = firefly_vel st !! j
      ∧ firefly_color st' !! j = firefly_color st !! j
      ∧ firefly_offset st' !! j = firefly_offset st !! j.
Proof.
  intros (Hp & Hv & Hc & Ho) Hi. unfold init_firefly. cbv zeta.
  destruct (normalize _) as [n|] eqn:Hn; simpl; [|done].
  intros [= <-]. simpl.
  assert (length (scale2 n FIREFLY_SPEED) = FIREFLY_SPEED) as Hspeed.
  { assert (is_Some (normalize
                       (sub2s (scale2 (dir_draw (random i)) 2.0) 1.0))) as Hs
      by (by eexists).
    apply normalize_is_Some in Hs. rewrite <- length_zero_iff in Hs.
    rewrite normalize_Some in Hn by done. injection Hn as <-.
    rewrite length_scaled_unit by done.
    apply Rabs_pos_eq. unfold FIREFLY_SPEED. lra. }
  split; [unfold well_formed; simpl; by rewrite !length_insert|].
  split; [exists (scale2 n FIREFLY_SPEED); split; [|done];
          apply list_lookup_insert_eq; by rewrite Hv|].
  split; [apply list_lookup_insert_eq; by rewrite Hp|].
  split; [apply list_lookup_insert_eq; by rewrite Hc|].
  split; [apply list_lookup_insert_eq; by rewrite Ho|].
  intros j Hj. by rewrite !list_lookup_insert_ne.
Qed.

(** [init_fireflies] normalises a random direction without a guard: it has
    a result exactly when no firefly draws [(0.5, 0.5)] for its direction,
    the draw that maps to the zero vector.  The state it then returns has
    [NUM_FIREFLIES] entries in every field; each firefly has a velocity of
    length [FIREFLY_SPEED], its two position draws as position, its three
    colour draws as colour and its offset draw times [2 * pi] as phase. *)
Theorem init_fireflies_spec (random : nat → init_draws) :
  (is_Some (init_fireflies random)
   ↔ ∀ i, (i < NUM_FIREFLIES)%nat → dir_draw (random i) ≠ (0.5, 0.5))
  ∧ ∀ st, init_fireflies random = Some st →
      well_formed st
      ∧ ∀ i, (i < NUM_FIREFLIES)%nat →
          has_speed st i
          ∧ firefly_pos st !! i = Some (pos_draw (random i) : vec2)
          ∧ firefly_color st !! i = Some (color_draw (random i) : vec3)
          ∧ firefly_offset st !! i
            = Some (offset_draw (random i) * PI * 2.0).
Proof.
  pose (P := λ (k : nat) (s : fireflies),
          well_formed s
          ∧ ∀ i, (i < k)%nat →
              has_speed s i
              ∧ firefly_pos s !! i = Some (pos_draw (random i) : vec2)
              ∧ firefly_color s !! i = Some (color_draw (random i) : vec3)
              ∧ firefly_offset s !! i
                = Some (offset_draw (random i) * PI * 2.0)).
  assert (∀ k u u', (k < NUM_FIREFLIES)%nat → P k u →
                    init_firefly random k u = Some u' → P (k + 1)%nat u')
    as Hstep.
  { intros k u u' Hk [Hwf Hdone] Hu.
    destruct (init_firefly_result random k u u' Hwf Hk Hu)
      as (Hwf' & Hs & Hp & Hc & Ho & Hother).
    split; [done|]. intros i Hi.
    destruct (decide (i = k)) as [->|Hne]; [done|].
    destruct (Hother i Hne) as (Hp' & Hv' & Hc' & Ho').
    destruct (Hdone i ltac:(lia)) as ((v & Hv & Hl) & Hpi & Hci & Hoi).
    split; [exists v; split; [by etrans|done]|].
    split; [by etrans|]. split; by etrans. }
  assert (P 0%nat declared) as H0.
  { split; [by repeat split|]. intros i Hi. lia. }
  split; [split|].
  - intros [st Hrun] i Hi.
    destruct (for_each_seq_bodies _ _ _ _ _ Hrun i ltac:(lia)) as [u Hu].
    by apply init_firefly_is_Some in Hu.
  - intros Hdir. unfold init_fireflies.
    destruct (for_each_seq_run P (init_firefly random) NUM_FIREFLIES 0
                declared) as (st & -> & _); [|done|by eexists].
    intros k u Hk HP.
    destruct (proj2 (init_firefly_is_Some random k u)) as [u' Hu'];
      [apply Hdir; lia|].
    exists u'. split; [done|]. apply (Hstep k u u'); [lia|done..].
  - intros st Hrun.
    apply (for_each_seq_inv P (init_firefly random) NUM_FIREFLIES 0
             declared st); [|done|exact Hrun].
    intros k u u' Hk. apply Hstep. lia.
Qed.

(** ** More on the fields and kernels of [gui.py] *)

(** [fragCoord // 16 * 16] for every integer coordinate, negative ones
    included: the snapped coordinate is the multiple of 16 at or below the
    coordinate, less than 16 away; snapping twice changes nothing, and two
    coordinates snap to the same cell exactly when their quotients by 16
    agree on both axes. *)
Theorem snap_block (c c' : Z * Z) :
  ((snap c).1 ≤ c.1 < (snap c).1 + 16)%Z
  ∧ ((snap c).2 ≤ c.2 < (snap c).2 + 16)%Z
  ∧ ((snap c).1 `mod` 16 = 0)%Z ∧ ((snap c).2 `mod` 16 = 0)%Z
  ∧ snap (snap c) = snap c
  ∧ (snap c = snap c'
     ↔ (c.1 `div` 16 = c'.1 `div` 16)%Z ∧ (c.2 `div` 16 = c'.2 `div` 16)%Z).
Proof.
  unfold snap; simpl.
  pose proof (Z.div_mod c.1 16 ltac:(lia)) as H1.
  pose proof (Z.div_mod c.2 16 ltac:(lia)) as H2.
  pose proof (Z.mod_pos_bound c.1 16 ltac:(lia)) as B1.
  pose proof (Z.mod_pos_bound c.2 16 ltac:(lia)) as B2.
  split; [lia|]. split; [lia|].
  split; [apply Z.mod_mul; lia|]. split; [apply Z.mod_mul; lia|].
  split.
  - by rewrite !Z.div_mul by lia.
  - split.
    + intros [= Ha Hb]. lia.
    + intros [-> ->]. done.
Qed.

Lemma fragment_eq (pow : R → R → R) {scene : Shader} (s : BaseShader)
    (t : R) (c : Z * Z) :
  (resf s).2 ≠ 0 →
  fragment pow s (1 / gamma s) t c = Some (shade pow s t c).
Proof.
  intros Hh. unfold fragment, shade.
  destruct (resf s) as [w h] eqn:Hresf. simpl in *.
  rewrite frag_uv_eq, bind_Some by done. by rewrite gamma_correct_eq.
Qed.

(** With a gamma of zero the kernel does not run. *)
Lemma render_gamma_zero (pow : R → R → R) {scene : Shader} (s : BaseShader)
    (t : R) :
  gamma s = 0 → render pow s t = None.
Proof. intros Hg. unfold render. by rewrite Hg, exponent_zero. Qed.

(** [BaseShader.render], cell by cell. *)
Lemma render_cells (pow : R → R → R) {scene : Shader} (s : BaseShader)
    (sh : Z * Z) (t : R) :
  shape (pixels s) = Some sh → (resf s).2 ≠ 0 → gamma s ≠ 0 →
  ∃ d',
    render pow s t = Some (set_pixels s d')
    ∧ (∀ c, c ∈ indices sh → d' !! c = Some (shade pow s t c))
    ∧ (∀ c, c ∉ indices sh → d' !! c = data (pixels s) !! c).
Proof.
  intros Hshape Hh Hg. unfold render, grouped.
  rewrite exponent_Some, bind_Some, Hshape by done. simpl.
  destruct (for_each_write (indices sh) (fragment pow s (1 / gamma s) t)
              (shade pow s t) (data (pixels s))) as (d' & -> & Hin & Hout).
  { intros c _. by apply fragment_eq. }
  by exists d'.
Qed.

(** [BaseShader.render] overwrites the frame in full.  On a shader with a
    placed pixel field and a height that is not zero, the kernel does not
    run when gamma is zero.  With any other gamma it has a result; the
    title, the resolution, gamma and the shape of the field stay as they
    are; every cell holds the colour of its own coordinate, whatever the
    field held before; and rendering again at the same time returns the
    same shader. *)
Theorem render_overwrites (pow : R → R → R) {scene : Shader} (s : BaseShader)
    (sh : Z * Z) (t : R) :
  shape (pixels s) = Some sh → (resf s).2 ≠ 0 →
  (gamma s = 0 → render pow s t = None)
  ∧ (gamma s ≠ 0 →
     ∃ s',
       render pow s t = Some s'
       ∧ title s' = title s ∧ res s' = res s ∧ resf s' = resf s
       ∧ gamma s' = gamma s ∧ shape (pixels s') = Some sh
       ∧ (∀ c, c ∈ indices sh →
            data (pixels s') !! c = Some (shade pow s t c))
       ∧ (∀ d0, ∃ s2,
            render pow (set_pixels s d0) t = Some s2
            ∧ ∀ c, c ∈ indices sh →
                data (pixels s2) !! c = data (pixels s') !! c)
       ∧ render pow s' t = Some s').
Proof.
  intros Hshape Hh. split; [apply render_gamma_zero|]. intros Hg.
  destruct (render_cells pow s sh t Hshape Hh Hg) as (d' & Hrun & Hin & Hout).
  exists (set_pixels s d'). split; [done|]. simpl.
  do 5 (split; [done|]). split; [exact Hin|]. split.
  - intros d0.
    destruct (render_cells pow (set_pixels s d0) sh t Hshape Hh Hg)
      as (d2 & Hrun2 & Hin2 & _).
    eexists. split; [exact Hrun2|]. intros c Hc. simpl.
    by rewrite Hin2, Hin.
  - destruct (render_cells pow (set_pixels s d') sh t Hshape Hh Hg)
      as (d2 & -> & Hin2 & Hout2).
    assert (d2 = d') as ->; [|done].
    apply map_eq. intros c. destruct (decide (c ∈ indices sh)) as [Hc|Hc].
    + by rewrite Hin2, Hin.
    + by rewrite Hout2.
Qed.

(** [render_overwrites] on the shader [tall_shader], whose gamma is
    [-1]. *)
Lemma render_overwrites_witness :
  ∃ s',
    render (scene := show_uv) Rpower tall_shader 0 = Some s'
    ∧ title s' = title tall_shader ∧ res s' = res tall_shader
    ∧ resf s' = resf tall_shader
    ∧ gamma s' = gamma tall_shader ∧ shape (pixels s') = Some (2, 4)%Z
    ∧ (∀ c, c ∈ indices (2, 4)%Z →
         data (pixels s') !! c
         = Some (shade (scene := show_uv) Rpower tall_shader 0 c))
    ∧ (∀ d0, ∃ s2,
         render (scene := show_uv) Rpower (set_pixels tall_shader d0) 0
         = Some s2
         ∧ ∀ c, c ∈ indices (2, 4)%Z →
             data (pixels s2) !! c = data (pixels s') !! c)
    ∧ render (scene := show_uv) Rpower s' 0 = Some s'.
Proof.
  apply (render_overwrites (scene := show_uv) Rpower tall_shader (2, 4)%Z 0).
  - reflexivity.
  - simpl. lra.
  - simpl. lra.
Defined.

(** With a positive gamma every channel that [BaseShader.render] stores
    lies in [[0, 1]], whatever the scene computes and whatever the power
    function returns: the clamp is the last step. *)
Theorem render_gamma_range (pow : R → R → R) {scene : Shader}
    (s : BaseShader) (sh : Z * Z) (t : R) :
  shape (pixels s) = Some sh → (resf s).2 ≠ 0 → gamma s > 0 →
  ∃ s',
    render pow s t = Some s'
    ∧ ∀ c, c ∈ indices sh →
        ∃ col, data (pixels s') !! c = Some col
               ∧ 0 <= col.1.1 <= 1 ∧ 0 <= col.1.2 <= 1 ∧ 0 <= col.2 <= 1.
Proof.
  intros Hshape Hh Hg.
  assert (gamma s ≠ 0) as Hg0 by lra.
  destruct (render_cells pow s sh t Hshape Hh Hg0) as (d' & Hrun & Hin & _).
  eexists. split; [exact Hrun|]. intros c Hc. simpl.
  exists (shade pow s t c). split; [by apply Hin|].
  unfold shade. cbv zeta. rewrite decide_True by done.
  unfold clamp3; simpl. repeat split; apply clamp_range.
Qed.

Lemma render_gamma_range_witness :
  ∃ s',
    render (scene := BaseShader_main_image) Rpower (base blocky) 0 = Some s'
    ∧ ∀ c, c ∈ indices (20, 3)%Z →
        ∃ col, data (pixels s') !! c = Some col
               ∧ 0 <= col.1.1 <= 1 ∧ 0 <= col.1.2 <= 1 ∧ 0 <= col.2 <= 1.
Proof.
  apply (render_gamma_range (scene := BaseShader_main_image) Rpower
           (base blocky) (20, 3)%Z 0).
  - reflexivity.
  - simpl. lra.
  - simpl. lra.
Defined.

(** *** The two passes *)

(** [render_pass1], cell by cell. *)
Lemma render_pass1_cells (pow : R → R → R) {scene : Shader}
    (s : TwoPassShader) (sh : Z * Z) (t : R) :
  shape (buffer s) = Some sh → (resf s).2 ≠ 0 → gamma s ≠ 0 →
  ∃ d',
    render_pass1 pow s t = Some (set_buffer s d')
    ∧ (∀ c, c ∈ indices sh → d' !! c = Some (shade pow s t c))
    ∧ (∀ c, c ∉ indices sh → d' !! c = data (buffer s) !! c).
Proof.
  intros Hshape Hh Hg. unfold render_pass1, grouped.
  rewrite exponent_Some, bind_Some, Hshape by done. simpl.
  destruct (for_each_write (indices sh) (fragment pow s (1 / gamma s) t)
              (shade pow s t) (data (buffer s))) as (d' & -> & Hin & Hout).
  { intros c _. by apply fragment_eq. }
  by exists d'.
Qed.

(** The first pass is the computation of [BaseShader.render] with another
    target: on a two-pass shader whose buffer and pixel field have one
    shape and whose gamma is not zero, [render_pass1] leaves in every
    buffer cell the colour that [BaseShader.render] leaves in the pixel of
    that coordinate, and does not touch the pixel field. *)
Theorem render_pass1_as_render (pow : R → R → R) {scene : Shader}
    (s : TwoPassShader) (sh : Z * Z) (t : R) :
  shape (pixels s) = Some sh → shape (buffer s) = Some sh →
  (resf s).2 ≠ 0 → gamma s ≠ 0 →
  ∃ s1 b,
    render_pass1 pow s t = Some s1
    ∧ render pow (base s) t = Some b
    ∧ pixels s1 = pixels s
    ∧ shape (buffer s1) = Some sh
    ∧ ∀ c, c ∈ indices sh → data (buffer s1) !! c = data (pixels b) !! c.
Proof.
  intros Hp Hb Hh Hg.
  destruct (render_pass1_cells pow s sh t Hb Hh Hg)
    as (d1 & Hrun1 & Hin1 & _).
  destruct (render_cells pow (base s) sh t Hp Hh Hg)
    as (d2 & Hrun2 & Hin2 & _).
  eexists _, _. split; [exact Hrun1|]. split; [exact Hrun2|].
  split; [done|]. split; [done|]. intros c Hc. simpl.
  by rewrite Hin1, Hin2.
Qed.

Lemma render_pass1_as_render_witness :
  ∃ s1 b,
    render_pass1 (scene := show_uv) Rpower blocky 0 = Some s1
    ∧ render (scene := show_uv) Rpower (base blocky) 0 = Some b
    ∧ pixels s1 = pixels blocky
    ∧ shape (buffer s1) = Some (20, 3)%Z
    ∧ ∀ c, c ∈ indices (20, 3)%Z →
        data (buffer s1) !! c = data (pixels b) !! c.
Proof.
  apply (render_pass1_as_render (scene := show_uv) Rpower blocky (20, 3)%Z 0).
  - reflexivity.
  - reflexivity.
  - simpl. lra.
  - simpl. lra.
Defined.

(** [TwoPassShader.render] shows the scene in blocks of 16 by 16 pixels:
    on a two-pass shader whose buffer and pixel field have one shape and
    whose gamma is not zero, the frame has at every pixel the colour of the
    coordinate snapped down to a multiple of 16 on both axes, so two pixels
    of one block have one colour. *)
Theorem two_pass_blocks (pow : R → R → R) {scene : Shader}
    (s : TwoPassShader) (sh : Z * Z) (t : R) :
  shape (pixels s) = Some sh → shape (buffer s) = Some sh →
  (resf s).2 ≠ 0 → gamma s ≠ 0 →
  ∃ s',
    TwoPassShader_render pow s t = Some s'
    ∧ (∀ c, c ∈ indices sh →
         data (pixels s') !! c = Some (shade pow s t (snap c)))
    ∧ (∀ c c', c ∈ indices sh → c' ∈ indices sh → snap c = snap c' →
         data (pixels s') !! c = data (pixels s') !! c').
Proof.
  intros Hp Hb Hh Hg. unfold TwoPassShader_render.
  destruct (render_pass1_cells pow s sh t Hb Hh Hg) as (d1 & -> & Hin1 & _).
  rewrite bind_Some.
  assert (resolvable (set_buffer s d1) sh) as Hres.
  { split; [done|]. intros x y Hx Hy. simpl.
    rewrite Hin1 by (by apply snap_in_range, elem_of_indices). by eexists. }
  destruct (render_pass2_lookup (set_buffer s d1) sh t Hres)
    as (d2 & -> & Hin2 & _).
  eexists. split; [done|].
  assert (∀ c, c ∈ indices sh → d2 !! c = Some (shade pow s t (snap c)))
    as Hcell.
  { intros c Hc. rewrite Hin2 by done. simpl.
    by rewrite Hin1 by (by apply snap_in_range). }
  split; [exact Hcell|]. intros c c' Hc Hc' Hsnap. simpl.
  by rewrite !Hcell, Hsnap.
Qed.

Lemma two_pass_blocks_witness :
  ∃ s',
    TwoPassShader_render (scene := show_uv) Rpower blocky 0 = Some s'
    ∧ (∀ c, c ∈ indices (20, 3)%Z →
         data (pixels s') !! c
         = Some (shade (scene := show_uv) Rpower blocky 0 (snap c)))
    ∧ (∀ c c', c ∈ indices (20, 3)%Z → c' ∈ indices (20, 3)%Z →
         snap c = snap c' →
         data (pixels s') !! c = data (pixels s') !! c').
Proof.
  apply (two_pass_blocks (scene := show_uv) Rpower blocky (20, 3)%Z 0).
  - reflexivity.
  - reflexivity.
  - simpl. lra.
  - simpl. lra.
Defined.

(** The scene of [BaseShader] itself is a gradient that does not move: for
    a window of width [w] and height [h] and a gamma that is not zero, the
    colour that [render] stores for the pixel [(x, y)] is the gamma step
    of the colour with the red channel [(x - w / 2) / h + 1 / 2], the green
    channel [y / h], which lies in [[0, 1)], and no blue, at every time. *)
Theorem default_image (pow : R → R → R) (title : string) (w h : Z)
    (gamma t : R) (s : BaseShader) (x y : Z) :
  gamma ≠ 0 →
  BaseShader_init title (Some (w, h)) gamma = Some s →
  (0 ≤ x < w)%Z → (0 ≤ y < h)%Z →
  ∃ s',
    render (scene := BaseShader_main_image) pow s t = Some s'
    ∧ data (pixels s') !! (x, y)
      = Some (gamma_correct pow gamma (1 / gamma)
                ((IZR x - IZR w / 2) / IZR h + 1 / 2, IZR y / IZR h, 0))
    ∧ 0 <= IZR y / IZR h < 1.
Proof.
  intros Hg Hinit Hx Hy.
  destruct (render_lookup (scene := BaseShader_main_image) pow title w h
              gamma t s Hg Hinit) as (s' & Hrun & Hlook).
  apply BaseShader_init_Some in Hinit as (Hw & Hh & _).
  simpl in *.
  assert (0 < IZR h) as Hh0 by (by apply IZR_lt).
  assert (0 <= IZR y < IZR h) as [Hy0 Hy1]
    by (split; [apply IZR_le | apply IZR_lt]; lia).
  exists s'. split; [done|]. split.
  - rewrite Hlook by done. do 2 f_equal.
    unfold main_image, BaseShader_main_image. simpl.
    replace 0.5 with (1 / 2) by lra.
    do 2 f_equal; field; lra.
  - split.
    + apply Rmult_le_pos; [done|]. apply Rlt_le, Rinv_0_lt_compat. lra.
    + apply Rmult_lt_reg_r with (r := IZR h); [done|].
      unfold Rdiv. rewrite Rmult_assoc, Rinv_l by lra. lra.
Qed.

(** [default_image] on the shader [tall_shader], whose gamma is [-1], and
    the pixel [(1, 3)]. *)
Lemma default_image_witness :
  ∃ s',
    render (scene := BaseShader_main_image) Rpower tall_shader 0 = Some s'
    ∧ data (pixels s') !! (1, 3)%Z
      = Some (gamma_correct Rpower (-1) (1 / -1)
                ((IZR 1 - IZR 2 / 2) / IZR 4 + 1 / 2, IZR 3 / IZR 4, 0))
    ∧ 0 <= IZR 3 / IZR 4 < 1.
Proof.
  apply (default_image Rpower "tall" 2 4 (-1) 0 tall_shader 1 3).
  - lra.
  - reflexivity.
  - lia.
  - lia.
Defined.

(** ** The distance functions of [sdf.py] *)

Lemma dot_self_zero_iff (v : vec2) : sdf.dot v v = 0 ↔ v = (0, 0).
Proof.
  destruct v as [x y]. unfold sdf.dot. simpl. split.
  - intros H. assert (x = 0) by nra. assert (y = 0) by nra. by subst.
  - intros [= -> ->]. lra.
Qed.

Lemma sub2_zero_iff (a b : vec2) : sub2 b a = (0, 0) ↔ a = b.
Proof.
  destruct a as [ax ay], b as [bx by']. unfold sub2. simpl. split.
  - intros [= H1 H2]. f_equal; lra.
  - intros [= -> ->]. f_equal; lra.
Qed.

(** A segment whose end points coincide is measured as a point.
    [sd_segment] divides by the squared length of the segment, which is
    zero there; the quotient [0 / 0] is NaN, the clamp turns it into 0, and
    the value is the distance from [p] to the point. *)
Theorem sd_segment_point (p a : vec2) :
  sdf.sd_segment p a a = Some (length (sub2 p a)).
Proof.
  unfold sdf.sd_segment. cbv zeta.
  assert (sub2 a a = (0, 0)) as -> by (by apply sub2_zero_iff).
  assert (sdf.dot (0, 0) (0, 0) = 0) as -> by (unfold sdf.dot; simpl; lra).
  rewrite clampq_quot_zero by lra.
  assert (sdf.dot (sub2 p a) (0, 0) = 0) as ->
    by (unfold sdf.dot; simpl; lra).
  rewrite decide_False by lra.
  do 2 f_equal. destruct p, a. unfold sub2, scale2; simpl. f_equal; lra.
Qed.

(** For a segment with distinct end points [sd_segment] returns the distance
    from [p] to a point of the segment, and no point of the segment is
    nearer to [p]. *)
Theorem sd_segment_nearest (p a b : vec2) :
  a ≠ b →
  ∃ d h,
    sdf.sd_segment p a b = Some d
    ∧ 0 <= h <= 1
    ∧ d = length (sub2 p (along a b h))
    ∧ ∀ s, 0 <= s <= 1 → d <= length (sub2 p (along a b s)).
Proof.
  intros Hab.
  assert (sdf.dot (sub2 b a) (sub2 b a) ≠ 0) as Hz.
  { intros Hz. apply Hab. by apply sub2_zero_iff, dot_self_zero_iff. }
  unfold sdf.sd_segment. cbv zeta. rewrite clampq_quot by done.
  set (q := sdf.dot (sub2 p a) (sub2 b a) / sdf.dot (sub2 b a) (sub2 b a)).
  assert (q * sdf.dot (sub2 b a) (sub2 b a)
          = sdf.dot (sub2 p a) (sub2 b a)) as Hq.
  { unfold q. field. done. }
  assert (0 < sdf.dot (sub2 b a) (sub2 b a)) as HL.
  { assert (0 <= sdf.dot (sub2 b a) (sub2 b a))
      by (unfold sdf.dot; nra). lra. }
  replace 0.0 with 0 by lra. replace 1.0 with 1 by lra.
  pose proof (clamp_range q) as Hh.
  assert (clamp q 0 1 = q ∨ (q < 0 ∧ clamp q 0 1 = 0)
          ∨ (1 < q ∧ clamp q 0 1 = 1)) as Hcase.
  { unfold clamp.
    destruct (Rle_or_lt 0 q) as [H0|H0], (Rle_or_lt q 1) as [H1|H1].
    - left. rewrite Rmax_left, Rmin_left; lra.
    - right; right. split; [done|]. rewrite Rmax_left, Rmin_right; lra.
    - right; left. split; [done|]. rewrite Rmax_right, Rmin_left; lra.
    - lra. }
  set (h := clamp q 0 1) in *. clearbody h.
  assert (∀ s, sub2 (sub2 p a) (scale2 (sub2 b a) s)
               = sub2 p (along a b s)) as Heq.
  { intros s. destruct p, a, b. unfold along, sub2, add2, scale2. simpl.
    f_equal; ring. }
  exists (length (sub2 (sub2 p a) (scale2 (sub2 b a) h))), h.
  split; [done|]. split; [done|]. split; [by rewrite Heq|].
  intros s Hs. rewrite <- Heq. unfold length. apply sqrt_le_1_alt.
  destruct p as [px py], a as [ax ay], b as [bx by'].
  unfold sdf.dot, sub2, scale2 in *. simpl in *.
  set (L := (bx - ax) * (bx - ax) + (by' - ay) * (by' - ay)) in *.
  set (D := (px - ax) * (bx - ax) + (py - ay) * (by' - ay)) in *.
  assert (∀ u, (px - ax - (bx - ax) * u) * (px - ax - (bx - ax) * u)
               + (py - ay - (by' - ay) * u) * (py - ay - (by' - ay) * u)
               = (px - ax) * (px - ax) + (py - ay) * (py - ay)
                 - 2 * u * D + u * u * L) as Hexp.
  { intros u. unfold L, D. ring. }
  rewrite !Hexp. rewrite <- Hq. clear Hexp Hz. clearbody q L D.
  assert (0 <= L * ((s - h) * (s + h - 2 * q))) as Hpos.
  { apply Rmult_le_pos; [lra|].
    destruct Hcase as [->|[[Hq0 ->]|[Hq1 ->]]].
    - replace ((s - q) * (s + q - 2 * q)) with ((s - q) * (s - q)) by ring.
      apply Rle_0_sqr.
    - apply Rmult_le_pos; lra.
    - replace ((s - 1) * (s + 1 - 2 * q))
        with ((1 - s) * (2 * q - 1 - s)) by ring.
      apply Rmult_le_pos; lra. }
  nra.
Qed.

Lemma sd_segment_nearest_witness :
  ∃ d h,
    sdf.sd_segment (0, 1) (0, 0) (1, 0) = Some d
    ∧ 0 <= h <= 1
    ∧ d = length (sub2 (0, 1) (along (0, 0) (1, 0) h))
    ∧ ∀ s, 0 <= s <= 1 → d <= length (sub2 (0, 1) (along (0, 0) (1, 0) s)).
Proof.
  apply (sd_segment_nearest (0, 1) (0, 0) (1, 0)).
  intros [= H]. lra.
Defined.

(** [sd_box] is at most zero exactly on the rectangle of half sizes [b]:
    its sign tells the inside, border included, from the outside. *)
Theorem sd_box_sign (p b : vec2) :
  sdf.sd_box p b <= 0 ↔ Rabs p.1 <= b.1 ∧ Rabs p.2 <= b.2.
Proof.
  unfold sdf.sd_box. cbv zeta. simpl.
  set (d1 := Rabs p.1 - b.1). set (d2 := Rabs p.2 - b.2).
  replace 0.0 with 0 by lra.
  assert (Rabs p.1 <= b.1 ∧ Rabs p.2 <= b.2 ↔ d1 <= 0 ∧ d2 <= 0) as ->
    by (unfold d1, d2; split; intros [? ?]; split; lra).
  clearbody d1 d2.
  pose proof (length_nonneg (Rmax d1 0, Rmax d2 0)) as Hlen.
  split.
  - intros Hle.
    destruct (Rle_or_lt d1 0) as [H1|H1], (Rle_or_lt d2 0) as [H2|H2];
      [done|exfalso..].
    + pose proof (abs_snd_le_length (Rmax d1 0, Rmax d2 0)) as Ha.
      simpl in Ha. rewrite (Rmax_left d2 0) in Ha, Hle by lra.
      rewrite Rabs_pos_eq in Ha by lra.
      assert (0 < Rmax d1 d2)
        by (eapply Rlt_le_trans; [exact H2|apply Rmax_r]).
      rewrite Rmin_right in Hle by lra. lra.
    + pose proof (abs_fst_le_length (Rmax d1 0, Rmax d2 0)) as Ha.
      simpl in Ha. rewrite (Rmax_left d1 0) in Ha, Hle by lra.
      rewrite Rabs_pos_eq in Ha by lra.
      assert (0 < Rmax d1 d2)
        by (eapply Rlt_le_trans; [exact H1|apply Rmax_l]).
      rewrite Rmin_right in Hle by lra. lra.
    + pose proof (abs_fst_le_length (Rmax d1 0, Rmax d2 0)) as Ha.
      simpl in Ha. rewrite (Rmax_left d1 0) in Ha, Hle by lra.
      rewrite Rabs_pos_eq in Ha by lra.
      assert (0 < Rmax d1 d2)
        by (eapply Rlt_le_trans; [exact H1|apply Rmax_l]).
      rewrite Rmin_right in Hle by lra. lra.
  - intros [H1 H2]. rewrite !Rmax_right by done.
    assert (length (0, 0) = 0) as -> by (by apply length_zero_iff).
    pose proof (Rmin_r (Rmax d1 d2) 0). lra.
Qed.

(** With one radius [r] for all four corners [sd_roundbox] is [sd_box] of
    the rectangle shrunk by [r] on each side, less [r]. *)
Theorem sd_roundbox_uniform (p b : vec2) (r : R) :
  sdf.sd_roundbox p b ((r, r), (r, r)) = sdf.sd_box p (sub2s b r) - r.
Proof.
  unfold sdf.sd_roundbox, sdf.sd_box, sub2s. cbv zeta.
  destruct (decide (p.1 > 0.0)), (decide (p.2 < 0.0)); simpl;
    replace (Rabs p.1 - b.1 + r) with (Rabs p.1 - (b.1 - r)) by ring;
    replace (Rabs p.2 - b.2 + r) with (Rabs p.2 - (b.2 - r)) by ring;
    ring.
Qed.

(** ** The falling rings of [taskA_Gubanova.py] *)

Lemma fract_range (x : R) : 0 <= taskA.fract x < 1.
Proof.
  unfold taskA.fract, taskA.floor.
  destruct (base_Int_part x) as [H1 H2]. lra.
Qed.

Lemma mix_range (lo hi x y a : R) :
  lo <= x <= hi → lo <= y <= hi → 0 <= a <= 1 →
  lo <= taskA.mix x y a <= hi.
Proof. intros Hx Hy Ha. unfold taskA.mix. nra. Qed.

Lemma mix3_within (lo hi : R) (x y : vec3) (a : R) :
  channels_within lo hi x → channels_within lo hi y → 0 <= a <= 1 →
  channels_within lo hi (taskA.mix3 x y a).
Proof.
  intros (? & ? & ?) (? & ? & ?) Ha. unfold taskA.mix3.
  split; [|split]; simpl; by apply mix_range.
Qed.

Lemma tm_smoothstep_range (edge1 x : R) :
  edge1 ≠ 0 → 0 <= taskA.smoothstep 0.0 edge1 x <= 1.
Proof.
  intros He. unfold taskA.smoothstep.
  rewrite clampq_quot by lra. cbv zeta.
  replace 0.0 with 0 by lra. replace 1.0 with 1 by lra.
  pose proof (clamp_range ((x - 0) / (edge1 - 0))) as Ht.
  set (t := clamp _ 0 1) in *. clearbody t.
  assert (0 <= (1 - t) * (1 - t) * (1 + 2 * t))
    by (repeat apply Rmult_le_pos; lra).
  split; [repeat apply Rmult_le_pos; lra|].
  replace 3.0 with 3 by lra. replace 2.0 with 2 by lra. lra.
Qed.

(** The complement mix of a colour with channels in [[0, 1)]. *)
Lemma complement_mix_within (c : vec3) :
  channels_within 0 1 c →
  channels_within 0.2 0.8
    (taskA.mix3 c (1.0 - c.1.1, 1.0 - c.1.2, 1.0 - c.2) 0.2).
Proof.
  intros (? & ? & ?). unfold taskA.mix3, taskA.mix.
  repeat split; simpl; lra.
Qed.

Lemma fract3_within (x y z : R) :
  channels_within 0 1 (taskA.fract x, taskA.fract y, taskA.fract z).
Proof.
  pose proof (fract_range x). pose proof (fract_range y).
  pose proof (fract_range z). repeat split; simpl; lra.
Qed.

Lemma channels_within_weaken (lo hi lo' hi' : R) (c : vec3) :
  lo' <= lo → hi <= hi' → channels_within lo hi c → channels_within lo' hi' c.
Proof. intros ? ? (? & ? & ?). repeat split; lra. Qed.

Lemma FallingRingsShader_init_Some (title : string) (res : option (Z * Z))
    (self : taskA.FallingRingsShader) :
  taskA.FallingRingsShader_init title res = Some self →
  taskA.softness self = 0.01 ∧ taskA.inner_color_mix_factor self = 0.5
  ∧ gamma (taskA.base self) = 2.2.
Proof.
  unfold taskA.FallingRingsShader_init. cbv zeta.
  destruct (BaseShader_init _ _ _) as [b|] eqn:Hb; [|done].
  rewrite bind_Some. intros [= <-]. simpl.
  apply BaseShader_init_Some in Hb as (_ & _ & _ & _ & Hg & _). done.
Qed.

(** Whatever [hash22] returns, the falling-rings scene of a constructed
    shader has a colour at every point and every time, and each channel of
    it lies in [[0, 0.8]]: the rings are never fully bright. *)
Theorem falling_rings_colour (hash22 : vec2 → vec2) (title : string)
    (res : option (Z * Z)) (self : taskA.FallingRingsShader) (uv : vec2)
    (t : R) :
  taskA.FallingRingsShader_init title res = Some self →
  ∃ col,
    taskA.main_image hash22 self uv t = Some col
    ∧ channels_within 0 0.8 col.
Proof.
  intros Hinit.
  apply FallingRingsShader_init_Some in Hinit as (Hsoft & Hmix & _).
  unfold taskA.main_image. cbv zeta. rewrite Hsoft, Hmix.
  set (h := hash22 _).
  set (outer := taskA.mix3 (taskA.fract (h.1 * 2.3), _, _) _ 0.2).
  assert (channels_within 0.2 0.8 outer) as Houter
    by apply complement_mix_within, fract3_within.
  assert (channels_within 0 0.8 taskA.black) as Hblack
    by (unfold taskA.black; repeat split; simpl; lra).
  clearbody outer.
  match goal with
  | |- context [taskA.mix3 taskA.black outer (taskA.smoothstep 0.0 0.01 ?x)] =>
      pose proof (tm_smoothstep_range 0.01 x ltac:(lra)) as Hao;
      set (ao := taskA.smoothstep 0.0 0.01 x) in *
  end.
  clearbody ao.
  assert (channels_within 0 0.8 (taskA.mix3 taskA.black outer ao)) as Hfinal.
  { apply mix3_within; [done| |done].
    eapply channels_within_weaken; [| |exact Houter]; lra. }
  case_decide; [|eexists; split; [done|exact Hfinal]].
  match goal with
  | |- context [taskA.smoothstep 0.0 0.01 ?x] =>
      pose proof (tm_smoothstep_range 0.01 x ltac:(lra)) as Hai;
      set (ai := taskA.smoothstep 0.0 0.01 x) in *
  end.
  clearbody ai. eexists. split; [done|].
  apply mix3_within; [done| |done].
  apply channels_within_weaken with (lo := 0.2) (hi := 0.8); [lra..|].
  apply mix3_within; [|done|lra].
  apply complement_mix_within, fract3_within.
Qed.

Lemma falling_rings_colour_witness :
  ∃ col,
    taskA.main_image (λ _, (0, 0)) rings (0, 0) 0 = Some col
    ∧ channels_within 0 0.8 col.
Proof.
  apply (falling_rings_colour (λ _, (0, 0)) "rings" (Some (8, 8)%Z) rings
           (0, 0) 0).
  reflexivity.
Defined.
